(** * Disk scheduling simulator: the five scheduling algorithms

    A shallow embedding of the algorithm methods of
    [DiskSchedulingSimulator] in [hardDisk_simulator.py] ([fcfs], [sstf],
    [scan], [c_scan], [c_look]) and of the part of [run_simulation] that
    calls them.

    Cylinders are Python integers, hence [Z].  A Python list of cylinders is
    a [list Z].  The only object an algorithm shares with its caller is the
    list bound to [requests]: [sstf] removes from it and the three sweep
    algorithms sort it in place.  Every algorithm is therefore written in
    state-passing style: it takes the contents of that list object and
    returns, next to the pair the Python code returns, the contents the
    object has when the call ends.  All other lists of the code
    ([seek_sequence], [left], [right]) are created inside the call.

    The form around the algorithms is embedded as well: [get_inputs] and
    [generate_random_queue] on the texts of the entry fields, with the
    message boxes as results, and [plot_on_axis] as the list of calls it
    makes on its axis. *)

From Stdlib Require Import ZArith Lia Ascii QArith_base.
From stdpp Require Import base decidable numbers list sorting strings gmap pretty.

Local Open Scope Z_scope.

(** ** Python primitives used by the algorithms *)

Module Py.

(** What a call can do: return a value, raise [ValueError] ([min] of an
    empty list, [list.remove] of an absent value), exhaust the fuel that
    bounds the iterations of a [while] loop in the model, or be handed a
    location that holds no list object (Python code cannot do that: a name
    always refers to a live object). *)
Inductive outcome (A : Type) : Type :=
| Returned (a : A)
| ValueError
| OutOfFuel
| NoObject.
Global Arguments Returned {A} a.
Global Arguments ValueError {A}.
Global Arguments OutOfFuel {A}.
Global Arguments NoObject {A}.

Definition bind {A B} (m : outcome A) (k : A → outcome B) : outcome B :=
  match m with
  | Returned a => k a
  | ValueError => ValueError
  | OutOfFuel => OutOfFuel
  | NoObject => NoObject
  end.

(** [l.sort()] on a list of integers: ascending.  Equal integers cannot
    be told apart, so the stability of Python's sort is not visible. *)
Definition sort (l : list Z) : list Z := merge_sort Z.le l.

(** [sorted(l, reverse=True)] on a list of integers: descending. *)
Definition sorted_reverse (l : list Z) : list Z := merge_sort (flip Z.le) l.

(** [min(l, key=key)]: the first element whose key is minimal; an empty
    list raises [ValueError] ([None] here). *)
Definition min_key_from (key : Z → Z) (best : Z) (l : list Z) : Z :=
  fold_left (λ best x, if decide (key x < key best) then x else best) l best.

Definition min_key (key : Z → Z) (l : list Z) : option Z :=
  match l with
  | [] => None
  | x :: l => Some (min_key_from key x l)
  end.

(** [l.remove(x)]: deletes the first occurrence of [x]; [ValueError]
    ([None] here) when there is none. *)
Fixpoint remove (x : Z) (l : list Z) : option (list Z) :=
  match l with
  | [] => None
  | y :: l => if decide (y = x) then Some l else (y ::.) <$> remove x l
  end.

(** [sum(f(i) for i in range(lo, hi))], accumulated from [0] left to
    right as [sum] does. *)
Definition sum_range (lo hi : nat) (f : nat → Z) : Z :=
  fold_left (λ acc i, acc + f i) (seq lo (hi - lo)) 0.

(** [l[i]] for an index [i ≥ 0]; the algorithms only index inside the
    list, where the default is never used. *)
Definition index (l : list Z) (i : nat) : Z := nth i l 0.

End Py.

Import Py.

(** ** The algorithms *)

(** The result of a call: the pair [(seek_sequence, total_seek)] the Python
    function returns and the contents of the caller's [requests] list
    object when the call ends. *)
Record call : Type := Call {
  seek_sequence : list Z;
  total_seek : Z;
  requests_after : list Z
}.

(** [sum(abs(seek_sequence[i] - seek_sequence[i-1])
        for i in range(1, len(seek_sequence)))],
    the expression every algorithm ends with. *)
Definition total_seek_of (seek_sequence : list Z) : Z :=
  sum_range 1 (length seek_sequence)
    (λ i, Z.abs (index seek_sequence i - index seek_sequence (i - 1))).

(** [fcfs]: [[head] + requests] builds a new list; [requests] is only
    read. *)
Definition fcfs (head : Z) (requests : list Z) (disk_size : Z) : call :=
  let seek_sequence := [head] ++ requests in
  Call seek_sequence (total_seek_of seek_sequence) requests.

(** The [while requests:] loop of [sstf].  [fuel] bounds the number of
    iterations; the state is [(current_head, seek_sequence, requests)]. *)
Fixpoint sstf_loop (fuel : nat) (current_head : Z)
    (seek_sequence requests : list Z) : outcome (list Z * list Z) :=
  match requests with
  | [] => Returned (seek_sequence, requests)
  | _ :: _ =>
    match fuel with
    | O => OutOfFuel
    | S fuel =>
      match min_key (λ x, Z.abs (x - current_head)) requests with
      | None => ValueError
      | Some closest_req =>
        let current_head := closest_req in
        let seek_sequence := seek_sequence ++ [current_head] in
        match remove current_head requests with
        | None => ValueError
        | Some requests => sstf_loop fuel current_head seek_sequence requests
        end
      end
    end
  end.

(** [sstf].  Each iteration removes one element, so [length requests]
    iterations are given as fuel ([sstf_returns] shows they suffice). *)
Definition sstf (head : Z) (requests : list Z) (disk_size : Z) : outcome call :=
  match sstf_loop (length requests) head [head] requests with
  | Returned (seek_sequence, requests) =>
      Returned (Call seek_sequence (total_seek_of seek_sequence) requests)
  | ValueError => ValueError
  | OutOfFuel => OutOfFuel
  | NoObject => NoObject
  end.

(** [scan]; [direction] is a Python string compared with ["right"]. *)
Definition scan (head : Z) (requests : list Z) (disk_size : Z)
    (direction : string) : call :=
  let seek_sequence := [head] in
  let requests := sort requests in
  let seek_sequence :=
    if decide (direction = "right"%string) then
      let right := filter (λ r, r >= head) requests in
      let left := filter (λ r, r < head) requests in
      let seek_sequence := seek_sequence ++ right in
      match left with
      | [] => seek_sequence
      | _ :: _ => (seek_sequence ++ [disk_size - 1]) ++ sorted_reverse left
      end
    else
      let left := filter (λ r, r < head) requests in
      let right := filter (λ r, r >= head) requests in
      let seek_sequence := seek_sequence ++ sorted_reverse left in
      match right with
      | [] => seek_sequence
      | _ :: _ => (seek_sequence ++ [0]) ++ right
      end in
  Call seek_sequence (total_seek_of seek_sequence) requests.

(** [c_scan]. *)
Definition c_scan (head : Z) (requests : list Z) (disk_size : Z) : call :=
  let seek_sequence := [head] in
  let requests := sort requests in
  let right := filter (λ r, r >= head) requests in
  let left := filter (λ r, r < head) requests in
  let seek_sequence := seek_sequence ++ right in
  let seek_sequence :=
    match left with
    | [] => seek_sequence
    | _ :: _ => (seek_sequence ++ [disk_size - 1; 0]) ++ left
    end in
  Call seek_sequence (total_seek_of seek_sequence) requests.

(** [c_look]. *)
Definition c_look (head : Z) (requests : list Z) (disk_size : Z) : call :=
  let seek_sequence := [head] in
  let requests := sort requests in
  let right := filter (λ r, r >= head) requests in
  let left := filter (λ r, r < head) requests in
  let seek_sequence := seek_sequence ++ right in
  let seek_sequence :=
    match left with
    | [] => seek_sequence
    | _ :: _ => seek_sequence ++ left
    end in
  Call seek_sequence (total_seek_of seek_sequence) requests.

(** The algorithms as the callers name them; [SCAN] carries the value of
    its [direction] argument. *)
Inductive algorithm : Type :=
| FCFS
| SSTF
| SCAN (direction : string)
| C_SCAN
| C_LOOK.

Definition run (a : algorithm) (head : Z) (requests : list Z) (disk_size : Z)
    : outcome call :=
  match a with
  | FCFS => Returned (fcfs head requests disk_size)
  | SSTF => sstf head requests disk_size
  | SCAN direction => Returned (scan head requests disk_size direction)
  | C_SCAN => Returned (c_scan head requests disk_size)
  | C_LOOK => Returned (c_look head requests disk_size)
  end.

(** ** The caller: list objects in a store

    [run_simulation] holds one list object, [requests], and hands every
    algorithm [list(requests)], a new object with the same contents.  A
    store maps locations to the contents of the list objects. *)

(** [list(requests)]. *)
Definition list_copy (requests : nat) (σ : gmap nat (list Z))
    : option (nat * gmap nat (list Z)) :=
  match σ !! requests with
  | Some contents =>
      let copy := fresh (dom σ) in Some (copy, <[copy := contents]> σ)
  | None => None
  end.

(** [func(head, requests, disk_size)] for the list object at [requests]:
    what the function returns, and the store in which that object has the
    contents the call left. *)
Definition call_on (func : algorithm) (head : Z) (requests : nat)
    (disk_size : Z) (σ : gmap nat (list Z))
    : outcome ((list Z * Z) * gmap nat (list Z)) :=
  match σ !! requests with
  | None => NoObject
  | Some contents =>
      bind (run func head contents disk_size) (λ c,
      Returned ((seek_sequence c, total_seek c),
                <[requests := requests_after c]> σ))
  end.

(** The dictionary [algorithms] of [run_simulation], in insertion order;
    [scan] is called without [direction], which then is ["right"]. *)
Definition algorithms : list (string * algorithm) :=
  [("FCFS", FCFS); ("SSTF", SSTF); ("SCAN", SCAN "right");
   ("C-SCAN", C_SCAN); ("C-LOOK", C_LOOK)]%string.

(** The loop [for name, (func, ax) in algorithms.items()] of
    [run_simulation]: each [func] is called on [list(requests)].  The
    plotting of each result is left out; the results are collected. *)
Fixpoint run_algorithms (algorithms : list (string * algorithm)) (head : Z)
    (requests : nat) (disk_size : Z) (σ : gmap nat (list Z))
    : outcome (list (string * (list Z * Z)) * gmap nat (list Z)) :=
  match algorithms with
  | [] => Returned ([], σ)
  | (name, func) :: algorithms =>
      match list_copy requests σ with
      | None => NoObject
      | Some (copy, σ) =>
          bind (call_on func head copy disk_size σ) (λ '(result, σ),
          bind (run_algorithms algorithms head requests disk_size σ)
            (λ '(results, σ), Returned ((name, result) :: results, σ)))
      end
  end.

Definition run_simulation (head : Z) (requests : nat) (disk_size : Z)
    (σ : gmap nat (list Z)) :=
  run_algorithms algorithms head requests disk_size σ.

(** The results [run_algorithms] collects: each algorithm's answer on the
    contents the caller's list had before the loop. *)
Definition answers (head : Z) (requests : list Z) (disk_size : Z)
    (algs : list (string * algorithm)) (results : list (string * (list Z * Z)))
    : Prop :=
  Forall2 (λ na nr, nr.1 = na.1 ∧
             ∃ c, run na.2 head requests disk_size = Returned c ∧
                  nr.2 = (seek_sequence c, total_seek c))
          algs results.

(** The checks of [get_inputs] on what reaches the algorithms:
    [0 <= head < disk_size] and [0 <= r < disk_size] for every request. *)
Definition valid_input (head : Z) (requests : list Z) (disk_size : Z) : Prop :=
  0 ≤ head < disk_size ∧ Forall (λ r, 0 ≤ r < disk_size) requests.

(** ** The form: reading the fields, filling the queue, drawing

    [get_inputs], [generate_random_queue], [plot_on_axis] and the whole of
    [run_simulation].  The text of an entry field is a [string]; a message
    box shown to the user is the result [inl message]. *)

(** The built-in functions of Python on strings that the form calls:
    [int(s)], [None] when it raises [ValueError], and [s.strip()].  They
    are no code of this repository and are taken as they come. *)
Record builtins : Type := Builtins {
  int : string → option Z;
  strip : string → string
}.

(** [s.split(sep)] for a separator of one character: the pieces between
    the separators, one more than there are separators. *)
Fixpoint str_split (sep : ascii) (s : string) : list string :=
  match s with
  | EmptyString => [EmptyString]
  | String c s =>
      if decide (c = sep) then EmptyString :: str_split sep s
      else match str_split sep s with
           | piece :: pieces => String c piece :: pieces
           | [] => [String c EmptyString]
           end
  end.

(** [str(n)] and [{n}] in an f-string, for an integer. *)
Definition str (n : Z) : string := pretty n.

(** The message of both [except (ValueError, TypeError)] handlers. *)
Definition get_inputs_invalid : string :=
  "Please enter valid integer values for all fields.".

Definition generate_invalid : string :=
  "Please enter valid integers for Disk Size and Number of Random Requests.".

(** [get_inputs], on the texts of the three entry fields. *)
Definition get_inputs (py : builtins)
    (head_var disk_size_var requests_var : string)
    : string + (Z * list Z * Z) :=
  match int py head_var with
  | None => inl get_inputs_invalid
  | Some head =>
    match int py disk_size_var with
    | None => inl get_inputs_invalid
    | Some disk_size =>
      let requests_str := strip py requests_var in
      if decide (requests_str = ""%string) then
        inl "Request Queue cannot be empty."%string
      else
        match mapM (λ r, int py (strip py r)) (str_split ","%char requests_str) with
        | None => inl get_inputs_invalid
        | Some requests =>
          if decide (¬ (0 ≤ head < disk_size)) then
            inl ("Initial head position (" +:+ str head +:+
                 ") must be in [0, " +:+ str (disk_size - 1) +:+ "].")%string
          else if decide (Exists (λ r, ¬ (0 ≤ r < disk_size)) requests) then
            inl ("All requests must be in [0, " +:+ str (disk_size - 1) +:+
                 "].")%string
          else inr (head, requests, disk_size)
        end
    end
  end.

(** [generate_random_queue], on the texts of the disk size and count
    fields: the message shown, if any, and the text of the queue field
    afterwards.  [sample disk_size count] is what
    [random.sample(range(disk_size), count)] returns when
    [0 <= count <= disk_size]; for a negative [count] it raises
    [ValueError], which the handler reports. *)
Definition generate_random_queue (py : builtins) (sample : Z → Z → list Z)
    (disk_size_var random_count_var requests_var : string)
    : option string * string :=
  match int py disk_size_var with
  | None => (Some generate_invalid, requests_var)
  | Some disk_size =>
    match int py random_count_var with
    | None => (Some generate_invalid, requests_var)
    | Some count =>
      if decide (count >= disk_size) then
        (Some "Number of random requests must be less than the disk size."%string,
         requests_var)
      else if decide (count < 0) then (Some generate_invalid, requests_var)
      else
        let requests := sample disk_size count in
        (None, String.concat "," (str <$> requests))
    end
  end.

(** The calls [plot_on_axis] makes on its axis, with their arguments. *)
Inductive ax_call : Type :=
| plot (xs : list Z) (ys : list nat) (fmt color : string) (markersize : Z)
       (markerfacecolor : string)
| invert_yaxis
| annotate (text : string) (xy xytext : Z * nat) (arrowstyle color : string)
           (shrinkA shrinkB : Z)
| set_yticks (ticks : list nat)
| set_yticklabels (labels : list Z)
| set_ylabel (label : string)
| set_title (title : string)
| set_xlim (left right : Z)
| grid (visible : bool) (linestyle : string) (alpha : Q).

(** [plot_on_axis]: the calls on [ax], in order. *)
Definition plot_on_axis (name : string) (sequence : list Z) (total_seek : Z)
    (disk_size : Z) : list ax_call :=
  let y_coords := seq 0 (length sequence) in
  [plot sequence y_coords "-o" "blue" 6 "lightblue"; invert_yaxis] ++
  (if decide (name ∈ ["SCAN"; "C-SCAN"; "C-LOOK"]%string) then
     (λ i, annotate "" (index sequence (i + 1), nth (i + 1) y_coords 0%nat)
                       (index sequence i, nth i y_coords 0%nat)
                    "->" "r" 4 4)
       <$> seq 0 (length sequence - 1)
   else []) ++
  [set_yticks y_coords; set_yticklabels sequence;
   set_ylabel "Request Order";
   set_title (name +:+ " (Total Seek: " +:+ str total_seek +:+ ")");
   set_xlim (-5) (disk_size + 5);
   grid true "--" (6 # 10)%Q].

(** [run_simulation] as a whole: the fields are read; when [get_inputs]
    has shown a message nothing is drawn; otherwise every algorithm is
    run on a copy of the queue and its result drawn on its axis.  The list
    [get_inputs] has built is a new object of the store.  Clearing the
    axes before the loop and labelling the last axis after it are left
    out. *)
Definition run_simulation_form (py : builtins)
    (head_var disk_size_var requests_var : string) (σ : gmap nat (list Z))
    : outcome (string + list (list ax_call)) :=
  match get_inputs py head_var disk_size_var requests_var with
  | inl message => Returned (inl message)
  | inr (head, requests, disk_size) =>
      let l := fresh (dom σ) in
      bind (run_simulation head l disk_size (<[l := requests]> σ))
        (λ '(results, _),
           Returned (inr ((λ nr : string * (list Z * Z),
                             plot_on_axis nr.1 nr.2.1 nr.2.2 disk_size)
                          <$> results)))
  end.

(** The horizontal lengths of the arrows among the calls on an axis. *)
Definition arrow_lengths (calls : list ax_call) : list Z :=
  omap (λ c, match c with
             | annotate _ xy xytext _ _ _ _ => Some (Z.abs (xy.1 - xytext.1))
             | _ => None
             end) calls.

(** The cylinders a call puts on the horizontal axis. *)
Definition drawn_cylinders (c : ax_call) : list Z :=
  match c with
  | plot xs _ _ _ _ _ => xs
  | annotate _ xy xytext _ _ _ _ => [xy.1; xytext.1]
  | _ => []
  end.

(** A text without the character [c]. *)
Fixpoint free_of (c : ascii) (s : string) : Prop :=
  match s with
  | EmptyString => True
  | String c' s => c' ≠ c ∧ free_of c s
  end.

(** A reading of plain decimal numerals, with an optional minus sign, and
    a [strip] that changes nothing: built-ins to try the form on. *)
Fixpoint digits_value (acc : Z) (s : string) : option Z :=
  match s with
  | EmptyString => Some acc
  | String c s =>
      let n := Z.of_nat (nat_of_ascii c) - 48 in
      if decide (0 ≤ n ≤ 9) then digits_value (10 * acc + n) s else None
  end.

Definition decimal (s : string) : option Z :=
  match s with
  | EmptyString => None
  | String "-"%char EmptyString => None
  | String "-"%char s => Z.opp <$> digits_value 0 s
  | s => digits_value 0 s
  end.

Definition plain : builtins := Builtins decimal (λ s, s).

(** ** Notions the properties are stated with *)

(** The sum of the distances between neighbours in a seek sequence. *)
Fixpoint path_cost (s : list Z) : Z :=
  match s with
  | x :: (y :: _) as t => Z.abs (y - x) + path_cost t
  | _ => 0
  end.

(** The boundary stops an algorithm puts into its seek sequence beyond the
    requests: [scan] the boundary it sweeps to when requests lie on the
    other side of the head, [c_scan] both boundaries when requests lie
    below the head, the others none. *)
Definition boundary_stops (a : algorithm) (head : Z) (requests : list Z)
    (disk_size : Z) : list Z :=
  match a with
  | SCAN direction =>
      if decide (direction = "right"%string) then
        if decide (Exists (λ r, r < head) requests) then [disk_size - 1] else []
      else
        if decide (Exists (λ r, r >= head) requests) then [0] else []
  | C_SCAN =>
      if decide (Exists (λ r, r < head) requests) then [disk_size - 1; 0] else []
  | FCFS | SSTF | C_LOOK => []
  end.

(** A sequence without the two entries at positions [k] and [k + 1]. *)
Definition without_pair_at (k : nat) (s : list Z) : list Z :=
  take k s ++ drop (k + 2) s.

(** A service order is greedy from [current] when each entry is, among
    the entries from it on, one nearest to the entry before it ([current]
    for the first entry). *)
Fixpoint greedy (current : Z) (visited : list Z) : Prop :=
  match visited with
  | [] => True
  | v :: rest =>
      Forall (λ r, Z.abs (v - current) ≤ Z.abs (r - current)) (v :: rest) ∧
      greedy v rest
  end.

(** ** The seek total

  The indexed sum of the code agrees with the recursive sum of the
  distances between neighbours. *)

Section seek_total.

Lemma fold_left_add_acc (f : nat → Z) (l : list nat) (a : Z) :
  fold_left (λ acc i, acc + f i) l a = a + fold_left (λ acc i, acc + f i) l 0.
Proof.
  revert a. induction l as [|i l IH]; intros a; simpl; [lia|].
  rewrite (IH (a + f i)), (IH (0 + f i)). lia.
Qed.

Lemma fold_left_add_shift (f g : nat → Z) (n lo : nat) :
  (∀ i, (lo ≤ i)%nat → f (S i) = g i) →
  fold_left (λ acc i, acc + f i) (seq (S lo) n) 0 =
  fold_left (λ acc i, acc + g i) (seq lo n) 0.
Proof.
  revert lo. induction n as [|n IH]; intros lo Hfg; simpl; [done|].
  rewrite (fold_left_add_acc f), (fold_left_add_acc g).
  rewrite (IH (S lo)) by (intros; apply Hfg; lia).
  rewrite Hfg by lia. done.
Qed.

Lemma total_seek_of_step x y l :
  total_seek_of (x :: y :: l) = Z.abs (y - x) + total_seek_of (y :: l).
Proof.
  unfold total_seek_of, sum_range. simpl length.
  replace (S (S (length l)) - 1)%nat with (S (length l)) by lia.
  replace (S (length l) - 1)%nat with (length l) by lia.
  simpl seq. simpl fold_left. rewrite fold_left_add_acc.
  f_equal. apply fold_left_add_shift.
  intros i Hi. destruct i as [|i]; [lia|].
  simpl. rewrite Nat.sub_0_r. done.
Qed.

Lemma total_seek_of_path_cost s : total_seek_of s = path_cost s.
Proof.
  induction s as [|x s IH]; [done|].
  destruct s as [|y s]; [done|].
  rewrite total_seek_of_step, IH. done.
Qed.

Lemma path_cost_nonneg s : 0 ≤ path_cost s.
Proof.
  induction s as [|x s IH]; simpl; [lia|].
  destruct s; [lia|]. lia.
Qed.

(** A path costs nothing exactly when the head never moves. *)
Lemma path_cost_zero x s : path_cost (x :: s) = 0 ↔ Forall (λ y, y = x) s.
Proof.
  revert x. induction s as [|y s IH]; intros x.
  - split; [constructor | done].
  - change (path_cost (x :: y :: s)) with (Z.abs (y - x) + path_cost (y :: s)).
    pose proof (path_cost_nonneg (y :: s)) as Hnn.
    rewrite Forall_cons. split.
    + intros H0. assert (y = x) as -> by lia. split; [done|].
      apply IH. lia.
    + intros [-> Hs]. apply IH in Hs. lia.
Qed.

End seek_total.

(** ** Sorting and the two partitions *)

Section sorting.

Local Instance flip_le_trans : Transitive (flip Z.le).
Proof. intros x y z; unfold flip; lia. Qed.

Local Instance flip_le_total : Total (flip Z.le).
Proof. intros x y; unfold flip; lia. Qed.

Local Instance flip_le_antisymm : AntiSymm (=) (flip Z.le).
Proof. intros x y; unfold flip; lia. Qed.

Lemma sort_Permutation l : sort l ≡ₚ l.
Proof. apply merge_sort_Permutation. Qed.

Lemma sort_sorted l : StronglySorted Z.le (sort l).
Proof. apply StronglySorted_merge_sort; apply _. Qed.

Lemma sorted_reverse_Permutation l : sorted_reverse l ≡ₚ l.
Proof. apply merge_sort_Permutation. Qed.

Lemma sorted_reverse_sorted l : StronglySorted (flip Z.le) (sorted_reverse l).
Proof. apply StronglySorted_merge_sort; apply _. Qed.

(** Sorting a sorted list changes nothing. *)
Lemma sort_of_sorted l : StronglySorted Z.le l → sort l = l.
Proof.
  intros Hl. apply (StronglySorted_unique Z.le); [apply sort_sorted | done |].
  apply sort_Permutation.
Qed.

Lemma sort_sort l : sort (sort l) = sort l.
Proof. apply sort_of_sorted, sort_sorted. Qed.

(** Two lists with the same elements sort to the same list. *)
Lemma sort_perm l1 l2 : l1 ≡ₚ l2 → sort l1 = sort l2.
Proof.
  intros Hp. apply (StronglySorted_unique Z.le); try apply sort_sorted.
  by rewrite !sort_Permutation.
Qed.

Lemma sorted_reverse_perm l1 l2 : l1 ≡ₚ l2 → sorted_reverse l1 = sorted_reverse l2.
Proof.
  intros Hp. apply (StronglySorted_unique (flip Z.le));
    try apply sorted_reverse_sorted.
  by rewrite !sorted_reverse_Permutation.
Qed.

(** Descending order is ascending order read backwards. *)
Lemma sorted_reverse_sort l : sorted_reverse l = reverse (sort l).
Proof.
  apply (StronglySorted_unique (flip Z.le)); [apply sorted_reverse_sorted | |].
  - apply Sorted_StronglySorted; [apply _|].
    apply Sorted_reverse, StronglySorted_Sorted, sort_sorted.
  - by rewrite sorted_reverse_Permutation, reverse_Permutation, sort_Permutation.
Qed.

Lemma StronglySorted_filter (R : relation Z) (P : Z → Prop)
    `{∀ x, Decision (P x)} l :
  StronglySorted R l → StronglySorted R (filter P l).
Proof.
  induction 1 as [|x l Hl IH Hx]; [constructor|].
  rewrite filter_cons. case_decide; [|done].
  constructor; [done|].
  apply Forall_forall. intros y [_ Hy]%list_elem_of_filter.
  by eapply Forall_forall in Hx.
Qed.

(** Filtering the sorted queue gives the sorted partition. *)
Lemma filter_sort (P : Z → Prop) `{∀ x, Decision (P x)} l :
  filter P (sort l) = sort (filter P l).
Proof.
  apply (StronglySorted_unique Z.le).
  - apply StronglySorted_filter, sort_sorted.
  - apply sort_sorted.
  - by rewrite !sort_Permutation.
Qed.

Lemma filter_nil_Forall (P : Z → Prop) `{∀ x, Decision (P x)} l :
  filter P l = [] ↔ Forall (λ x, ¬ P x) l.
Proof.
  induction l as [|x l IH]; [by split; [constructor|]|].
  rewrite filter_cons, Forall_cons. case_decide; [|by rewrite IH; tauto].
  split; [done | tauto].
Qed.

(** The two partitions of the code together are the whole queue. *)
Lemma partition_Permutation head (l : list Z) :
  filter (λ r, r >= head) l ++ filter (λ r, r < head) l ≡ₚ l.
Proof.
  induction l as [|x l IH]; [done|].
  rewrite !filter_cons. repeat case_decide; try lia.
  - simpl. by rewrite IH.
  - by rewrite <-Permutation_middle, IH.
Qed.

Lemma sort_partition_nil (P : Z → Prop) `{∀ x, Decision (P x)} l :
  filter P (sort l) = [] ↔ filter P l = [].
Proof.
  rewrite !filter_nil_Forall. by rewrite sort_Permutation.
Qed.

End sorting.

(** ** [min] and [remove], and the loop of [sstf] *)

Section sstf_loop.

Lemma min_key_from_elem key best l : min_key_from key best l ∈ best :: l.
Proof.
  unfold min_key_from. revert best.
  induction l as [|x l IH]; intros best; simpl; [by left|].
  case_decide.
  - right. apply IH.
  - specialize (IH best). apply elem_of_cons in IH as [->|?].
    + by left.
    + by do 2 right.
Qed.

Lemma min_key_from_le_best key best l :
  key (min_key_from key best l) ≤ key best.
Proof.
  unfold min_key_from. revert best.
  induction l as [|x l IH]; intros best; simpl; [lia|].
  case_decide; [specialize (IH x) | specialize (IH best)]; lia.
Qed.

(** [min] returns an element whose key no other element undercuts. *)
Lemma min_key_from_le key best l y :
  y ∈ best :: l → key (min_key_from key best l) ≤ key y.
Proof.
  revert best.
  induction l as [|x l IH]; intros best Hy.
  - apply elem_of_cons in Hy as [->|Hy]; [apply min_key_from_le_best|].
    by apply elem_of_nil in Hy.
  - change (min_key_from key best (x :: l)) with
      (min_key_from key (if decide (key x < key best) then x else best) l).
    apply elem_of_cons in Hy as [->|Hy].
    + etrans; [apply min_key_from_le_best|]. case_decide; lia.
    + apply elem_of_cons in Hy as [->|Hy].
      * etrans; [apply min_key_from_le_best|]. case_decide; lia.
      * apply IH. by right.
Qed.

Lemma remove_elem x l :
  x ∈ l → ∃ l', remove x l = Some l' ∧ l ≡ₚ x :: l'.
Proof.
  induction l as [|y l IH]; intros Hx; [by apply elem_of_nil in Hx|].
  simpl. case_decide as Hy.
  - subst. by exists l.
  - apply elem_of_cons in Hx as [->|Hx]; [done|].
    destruct (IH Hx) as (l' & -> & Hp). exists (y :: l'). split; [done|].
    rewrite Hp. apply perm_swap.
Qed.

(** Given as many iterations as there are requests, the loop ends with
    an empty queue, having appended the requests in some order. *)
Lemma sstf_loop_returns fuel current_head seek_sequence requests :
  (length requests ≤ fuel)%nat →
  ∃ visited,
    sstf_loop fuel current_head seek_sequence requests
      = Returned (seek_sequence ++ visited, []) ∧
    visited ≡ₚ requests.
Proof.
  revert current_head seek_sequence requests.
  induction fuel as [|fuel IH]; intros current_head seek_sequence requests Hlen.
  - destruct requests; [|simpl in Hlen; lia].
    exists []. by rewrite app_nil_r.
  - destruct requests as [|r requests].
    { exists []. by rewrite app_nil_r. }
    simpl sstf_loop.
    set (closest_req := min_key_from _ r requests).
    destruct (remove_elem closest_req (r :: requests)) as (rest & Hrm & Hp).
    { apply min_key_from_elem. }
    simpl in Hrm. rewrite Hrm.
    assert (length rest ≤ fuel)%nat as Hrest.
    { apply Permutation_length in Hp. simpl in *. lia. }
    destruct (IH closest_req (seek_sequence ++ [closest_req]) rest Hrest)
      as (visited & -> & Hv).
    exists (closest_req :: visited). split.
    + by rewrite <-app_assoc.
    + by rewrite Hp, Hv.
Qed.

(** More fuel than that changes nothing. *)
Lemma sstf_loop_fuel fuel current_head seek_sequence requests :
  (length requests ≤ fuel)%nat →
  sstf_loop fuel current_head seek_sequence requests =
  sstf_loop (length requests) current_head seek_sequence requests.
Proof.
  revert current_head seek_sequence requests.
  induction fuel as [|fuel IH]; intros current_head seek_sequence requests Hlen.
  - by destruct requests; [|simpl in Hlen; lia].
  - destruct requests as [|r requests]; [done|].
    simpl sstf_loop.
    set (closest_req := min_key_from _ r requests).
    destruct (remove_elem closest_req (r :: requests)) as (rest & Hrm & Hp).
    { apply min_key_from_elem. }
    simpl in Hrm. rewrite Hrm.
    apply Permutation_length in Hp. simpl in Hp, Hlen.
    rewrite IH by lia.
    replace (length requests) with (length rest) by lia. done.
Qed.

(** [sstf] returns: no [ValueError], and the iterations suffice. *)
Lemma sstf_returns head requests disk_size :
  ∃ visited,
    sstf head requests disk_size =
      Returned (Call (head :: visited) (total_seek_of (head :: visited)) []) ∧
    visited ≡ₚ requests.
Proof.
  unfold sstf.
  destruct (sstf_loop_returns (length requests) head [head] requests)
    as (visited & -> & Hv); [done|].
  by exists visited.
Qed.

End sstf_loop.

(** ** The seek sequence of each algorithm, written out *)

Section sequences.

Lemma sort_nil_inv l : sort l = [] → l = [].
Proof. intros Hl. apply Permutation_nil. by rewrite <-Hl, sort_Permutation. Qed.

(** The test [if left:] (or [if right:]) on a partition of the sorted
    queue asks whether the queue has an element of that kind. *)
Lemma partition_cases (P : Z → Prop) `{∀ x, Decision (P x)} requests :
  (¬ Exists P requests ∧ sort (filter P requests) = []) ∨
  (Exists P requests ∧ ∃ x l, sort (filter P requests) = x :: l).
Proof.
  destruct (sort (filter P requests)) as [|x l] eqn:Hs.
  - left. split; [|done]. apply sort_nil_inv in Hs.
    apply filter_nil_Forall in Hs. by apply Forall_not_Exists.
  - right. split; [|by eauto].
    assert (x ∈ filter P requests) as [Hx ?]%list_elem_of_filter.
    { rewrite <-(sort_Permutation (filter P requests)), Hs. by left. }
    apply Exists_exists. eauto.
Qed.

Lemma fcfs_sequence head requests disk_size :
  seek_sequence (fcfs head requests disk_size) = head :: requests.
Proof. done. Qed.

Lemma scan_right_sequence head requests disk_size :
  seek_sequence (scan head requests disk_size "right") =
  head :: sort (filter (λ r, r >= head) requests)
       ++ boundary_stops (SCAN "right") head requests disk_size
       ++ reverse (sort (filter (λ r, r < head) requests)).
Proof.
  unfold scan, boundary_stops. rewrite !decide_True by done. simpl.
  rewrite !filter_sort.
  destruct (partition_cases (λ r, r < head) requests)
    as [[Hno Hs]|[Hex (x & l & Hs)]]; rewrite Hs.
  - case_decide; [contradiction|]. simpl. by rewrite app_nil_r.
  - case_decide; [|contradiction]. rewrite <-Hs.
    rewrite (sorted_reverse_perm _ _ (sort_Permutation _)), sorted_reverse_sort.
    by rewrite <-!app_assoc.
Qed.

Lemma scan_left_sequence head requests disk_size direction :
  direction ≠ "right"%string →
  seek_sequence (scan head requests disk_size direction) =
  head :: reverse (sort (filter (λ r, r < head) requests))
       ++ boundary_stops (SCAN direction) head requests disk_size
       ++ sort (filter (λ r, r >= head) requests).
Proof.
  intros Hd. unfold scan, boundary_stops. rewrite !decide_False by done. simpl.
  rewrite !filter_sort.
  rewrite (sorted_reverse_perm _ _ (sort_Permutation _)), sorted_reverse_sort.
  destruct (partition_cases (λ r, r >= head) requests)
    as [[Hno Hs]|[Hex (x & l & Hs)]]; rewrite Hs.
  - case_decide; [contradiction|]. simpl. by rewrite !app_nil_r.
  - case_decide; [|contradiction]. by rewrite <-!app_assoc.
Qed.

Lemma c_scan_sequence head requests disk_size :
  seek_sequence (c_scan head requests disk_size) =
  head :: sort (filter (λ r, r >= head) requests)
       ++ boundary_stops C_SCAN head requests disk_size
       ++ sort (filter (λ r, r < head) requests).
Proof.
  unfold c_scan, boundary_stops. simpl. rewrite !filter_sort.
  destruct (partition_cases (λ r, r < head) requests)
    as [[Hno Hs]|[Hex (x & l & Hs)]]; rewrite Hs.
  - case_decide; [contradiction|]. simpl. by rewrite app_nil_r.
  - case_decide; [|contradiction]. by rewrite <-!app_assoc.
Qed.

Lemma c_look_sequence head requests disk_size :
  seek_sequence (c_look head requests disk_size) =
  head :: sort (filter (λ r, r >= head) requests)
       ++ sort (filter (λ r, r < head) requests).
Proof.
  unfold c_look. simpl. rewrite !filter_sort.
  destruct (sort (filter (λ r, r < head) requests)); [|done].
  by rewrite app_nil_r.
Qed.

(** Every algorithm returns, and its total is the path cost of its
    sequence. *)
Lemma run_returns a head requests disk_size :
  ∃ c, run a head requests disk_size = Returned c ∧
       total_seek c = path_cost (seek_sequence c).
Proof.
  destruct a; simpl; try (eexists; split; [done|]; apply total_seek_of_path_cost).
  destruct (sstf_returns head requests disk_size) as (visited & -> & _).
  eexists; split; [done|]. apply total_seek_of_path_cost.
Qed.

(** Every seek sequence starts with the head position. *)
Lemma run_sequence_head a head requests disk_size c :
  run a head requests disk_size = Returned c →
  ∃ rest, seek_sequence c = head :: rest.
Proof.
  destruct a; simpl.
  - intros [= <-]. by eexists.
  - destruct (sstf_returns head requests disk_size) as (visited & -> & _).
    intros [= <-]. by eexists.
  - intros [= <-]. destruct (decide (direction = "right"%string)) as [->|Hd].
    + rewrite scan_right_sequence. by eexists.
    + rewrite scan_left_sequence by done. by eexists.
  - intros [= <-]. rewrite c_scan_sequence. by eexists.
  - intros [= <-]. rewrite c_look_sequence. by eexists.
Qed.

(** What each algorithm leaves in the caller's list object. *)
Lemma run_requests_after a head requests disk_size c :
  run a head requests disk_size = Returned c →
  requests_after c =
    match a with
    | FCFS => requests
    | SSTF => []
    | SCAN _ | C_SCAN | C_LOOK => sort requests
    end.
Proof.
  destruct a; simpl; try by intros [= <-].
  destruct (sstf_returns head requests disk_size) as (visited & -> & _).
  by intros [= <-].
Qed.

End sequences.

(** ** The caller's list object across calls *)

Section caller.

(** A second call on the list object a first call has used: for every
    algorithm but [sstf] it returns what the first call returned. *)
Lemma run_again a head requests disk_size c :
  a ≠ SSTF →
  run a head requests disk_size = Returned c →
  run a head (requests_after c) disk_size = Returned c.
Proof.
  intros Ha. destruct a; simpl; try done; intros [= <-]; f_equal.
  - unfold scan. simpl. by rewrite sort_sort.
  - unfold c_scan. simpl. by rewrite sort_sort.
  - unfold c_look. simpl. by rewrite sort_sort.
Qed.

Lemma run_algorithms_spec algs head (l : nat) disk_size requests
    (σ : gmap nat (list Z)) :
  σ !! l = Some requests →
  ∃ results σ',
    run_algorithms algs head l disk_size σ = Returned (results, σ') ∧
    (∀ l', is_Some (σ !! l') → σ' !! l' = σ !! l') ∧
    answers head requests disk_size algs results.
Proof.
  revert σ. induction algs as [|[name a] algs IH]; intros σ Hl.
  - exists [], σ. split; [done|]. split; [done|]. constructor.
  - simpl. unfold list_copy. rewrite Hl.
    set (copy := fresh (dom σ)).
    assert (σ !! copy = None) as Hfresh.
    { apply not_elem_of_dom. apply is_fresh. }
    unfold call_on. rewrite lookup_insert_eq.
    destruct (run_returns a head requests disk_size) as (c & Hc & _).
    rewrite Hc. simpl. rewrite insert_insert_eq.
    assert (copy ≠ l) as Hne by congruence.
    destruct (IH (<[copy := requests_after c]> σ)) as (results & σ' & -> & Hσ' & Hres).
    { by rewrite lookup_insert_ne. }
    simpl. exists ((name, (seek_sequence c, total_seek c)) :: results), σ'.
    split; [done|]. split.
    + intros l' Hl'. rewrite Hσ'.
      * apply lookup_insert_ne. intros <-. rewrite Hfresh in Hl'.
        by destruct Hl'.
      * rewrite lookup_insert_ne; [done|]. intros <-. rewrite Hfresh in Hl'.
        by destruct Hl'.
    + constructor; [|done]. simpl. eauto.
Qed.

End caller.

(** ** Properties of the algorithms *)

(** The shape of every seek sequence: the head position, then the requests
    in the order of service, with the boundary stops in between. *)
Lemma run_sequence_shape a head requests disk_size :
  ∃ c before after,
    run a head requests disk_size = Returned c ∧
    seek_sequence c =
      head :: before ++ boundary_stops a head requests disk_size ++ after ∧
    before ++ after ≡ₚ requests.
Proof.
  destruct a.
  - exists (fcfs head requests disk_size), requests, [].
    simpl. by rewrite !app_nil_r.
  - destruct (sstf_returns head requests disk_size) as (visited & Hr & Hv).
    eexists _, visited, []. simpl. rewrite Hr. simpl.
    by rewrite !app_nil_r.
  - destruct (decide (direction = "right"%string)) as [->|Hd].
    + eexists _, _, _. split; [done|]. split; [apply scan_right_sequence|].
      rewrite reverse_Permutation, !sort_Permutation.
      apply partition_Permutation.
    + eexists _, _, _. split; [done|].
      split; [by apply scan_left_sequence|].
      rewrite reverse_Permutation, !sort_Permutation.
      rewrite Permutation_app_comm. apply partition_Permutation.
  - eexists _, _, _. split; [done|]. split; [apply c_scan_sequence|].
    rewrite !sort_Permutation. apply partition_Permutation.
  - eexists _, _, []. split; [done|]. split.
    + rewrite c_look_sequence. simpl. by rewrite app_nil_r.
    + rewrite app_nil_r, !sort_Permutation. apply partition_Permutation.
Qed.

(** The form's default input, head 50, disk size 200 and the queue
    98, 183, 37, 122, 14, 124, 65, 67, under the other four algorithms. *)
Example fcfs_scenario :
  fcfs 50 [98; 183; 37; 122; 14; 124; 65; 67] 200 =
  Call [50; 98; 183; 37; 122; 14; 124; 65; 67] 643
       [98; 183; 37; 122; 14; 124; 65; 67].
Proof. vm_compute. reflexivity. Qed.

Example scan_scenario :
  scan 50 [98; 183; 37; 122; 14; 124; 65; 67] 200 "right" =
  Call [50; 65; 67; 98; 122; 124; 183; 199; 37; 14] 334
       [14; 37; 65; 67; 98; 122; 124; 183].
Proof. vm_compute. reflexivity. Qed.

Example c_scan_scenario :
  c_scan 50 [98; 183; 37; 122; 14; 124; 65; 67] 200 =
  Call [50; 65; 67; 98; 122; 124; 183; 199; 0; 14; 37] 385
       [14; 37; 65; 67; 98; 122; 124; 183].
Proof. vm_compute. reflexivity. Qed.

Example c_look_scenario :
  c_look 50 [98; 183; 37; 122; 14; 124; 65; 67] 200 =
  Call [50; 65; 67; 98; 122; 124; 183; 14; 37] 325
       [14; 37; 65; 67; 98; 122; 124; 183].
Proof. vm_compute. reflexivity. Qed.

(** C1, as the code has it: on head 50, disk size 200 and the queue
    98, 183, 37, 122, 14, 124, 65, 67 the nearest request to 50 is 37 (13
    away, 65 is 15 away), so [sstf] returns the sequence
    50, 37, 14, 65, 67, 98, 122, 124, 183 and the total 205, and leaves the
    queue object empty. *)
Theorem sstf_scenario :
  sstf 50 [98; 183; 37; 122; 14; 124; 65; 67] 200 =
  Returned (Call [50; 37; 14; 65; 67; 98; 122; 124; 183] 205 []).
Proof. vm_compute. reflexivity. Qed.

(** C1 fails as stated: the sequence [sstf] returns on the scenario is not
    50, 65, 67, 37, 14, 98, 122, 124, 183 and its total is not 239. *)
Lemma sstf_scenario_not_239 :
  ∃ c, sstf 50 [98; 183; 37; 122; 14; 124; 65; 67] 200 = Returned c ∧
       seek_sequence c ≠ [50; 65; 67; 37; 14; 98; 122; 124; 183] ∧
       total_seek c ≠ 239.
Proof. eexists. split; [vm_compute; reflexivity|]. split; discriminate. Qed.

(** C3, as the code has it: for every algorithm and every input the call
    returns, the total seek distance is the sum of the distances between
    neighbours of the returned sequence and is non-negative, and it is 0
    exactly when every cylinder of the returned sequence is the head
    position; then every request is the head position. *)
Theorem total_seek_zero_iff a head requests disk_size :
  ∃ c, run a head requests disk_size = Returned c ∧
       total_seek c = path_cost (seek_sequence c) ∧
       0 ≤ total_seek c ∧
       (total_seek c = 0 ↔ Forall (λ y, y = head) (seek_sequence c)) ∧
       (total_seek c = 0 → Forall (λ r, r = head) requests).
Proof.
  destruct (run_sequence_shape a head requests disk_size)
    as (c & before & after & Hrun & Hseq & Hperm).
  destruct (run_returns a head requests disk_size) as (c' & Hrun' & Htot).
  assert (c' = c) as -> by congruence.
  exists c. split; [done|]. split; [done|]. rewrite Htot, Hseq.
  split; [apply path_cost_nonneg|].
  rewrite path_cost_zero. split.
  - rewrite Forall_cons. tauto.
  - intros Hall. rewrite <-Hperm.
    rewrite !Forall_app in Hall. rewrite Forall_app. tauto.
Qed.

(** C3 fails as stated: on the valid input head 5, queue 5, disk size 10,
    [fcfs] returns a sequence of length 2 whose total is 0. *)
Lemma zero_total_with_a_request :
  valid_input 5 [5] 10 ∧
  ∃ c, run FCFS 5 [5] 10 = Returned c ∧
       total_seek c = 0 ∧ length (seek_sequence c) = 2%nat.
Proof.
  split.
  - split; [lia|]. repeat constructor; lia.
  - eexists. split; [done|]. by vm_compute.
Qed.

(** C4 fails on the code in the toward-min direction: with head 50, queue
    30, 50 and direction ["left"], the request 50 equal to the head
    position is serviced last, after the boundary stop 0. *)
Theorem scan_left_head_request_after_boundary :
  scan 50 [30; 50] 200 "left" = Call [50; 30; 0; 50] 100 [30; 50].
Proof. vm_compute. reflexivity. Qed.

(** In the toward-max direction the same request is serviced first. *)
Lemma scan_right_head_request_first :
  scan 50 [30; 50] 200 "right" = Call [50; 50; 199; 30] 318 [30; 50].
Proof. vm_compute. reflexivity. Qed.

(** C5: every algorithm returns, and its seek sequence is the head position
    followed by the requests and the algorithm's boundary stops: without
    the leading head position and the boundary stops it is a permutation
    of the request queue, so every value occurs in it as often as in the
    queue. *)
Theorem requests_consumed_once a head requests disk_size :
  ∃ c before after,
    run a head requests disk_size = Returned c ∧
    seek_sequence c =
      head :: before ++ boundary_stops a head requests disk_size ++ after ∧
    before ++ after ≡ₚ requests ∧
    (∀ x, length (filter (λ y, y = x) (before ++ after)) =
          length (filter (λ y, y = x) requests)) ∧
    length (seek_sequence c) =
      (1 + length requests +
       length (boundary_stops a head requests disk_size))%nat.
Proof.
  destruct (run_sequence_shape a head requests disk_size)
    as (c & before & after & Hrun & Hseq & Hperm).
  exists c, before, after. repeat (split; [done|]). split.
  - intros x. by rewrite Hperm.
  - rewrite Hseq. simpl. rewrite !length_app.
    apply Permutation_length in Hperm. rewrite length_app in Hperm. lia.
Qed.

(** C6: the seek sequence of [c_scan] is the head position, then the
    requests [>= head] in ascending order, then the requests [< head] in
    ascending order; when some request lies below the head the pair
    [disk_size - 1], [0] stands between the two runs, and when none does
    the sequence holds no boundary stop. *)
Theorem c_scan_boundary_pair head requests disk_size :
  let right := sort (filter (λ r, r >= head) requests) in
  let left := sort (filter (λ r, r < head) requests) in
  StronglySorted Z.le right ∧ right ≡ₚ filter (λ r, r >= head) requests ∧
  StronglySorted Z.le left ∧ left ≡ₚ filter (λ r, r < head) requests ∧
  (Exists (λ r, r < head) requests →
     seek_sequence (c_scan head requests disk_size) =
       head :: right ++ [disk_size - 1; 0] ++ left) ∧
  (¬ Exists (λ r, r < head) requests →
     seek_sequence (c_scan head requests disk_size) = head :: right).
Proof.
  repeat split; try apply sort_sorted; try apply sort_Permutation.
  - intros Hex. rewrite c_scan_sequence. unfold boundary_stops.
    by rewrite decide_True.
  - intros Hno. rewrite c_scan_sequence. unfold boundary_stops.
    rewrite decide_False by done.
    destruct (partition_cases (λ r, r < head) requests)
      as [[_ ->]|[Hex _]]; [|contradiction].
    by rewrite !app_nil_r.
Qed.

(** The scenario has requests below the head 50: the pair 199, 0 stands
    between 183 and 14. *)
Lemma c_scan_boundary_pair_witness :
  Exists (λ r, r < 50) [98; 183; 37; 122; 14; 124; 65; 67] ∧
  seek_sequence (c_scan 50 [98; 183; 37; 122; 14; 124; 65; 67] 200) =
  [50; 65; 67; 98; 122; 124; 183; 199; 0; 14; 37].
Proof.
  assert (Exists (λ r, r < 50) [98; 183; 37; 122; 14; 124; 65; 67]) as Hex.
  { do 2 apply Exists_cons_tl. apply Exists_cons_hd. reflexivity. }
  split; [exact Hex|].
  destruct (c_scan_boundary_pair 50 [98; 183; 37; 122; 14; 124; 65; 67] 200)
    as (_ & _ & _ & _ & Hpair & _).
  rewrite (Hpair Hex). vm_compute. reflexivity.
Defined.

(** C7: [fcfs] returns the head position followed by the request queue as
    it is: the sequence from its second entry on is the queue, which the
    call leaves as it was. *)
Theorem fcfs_keeps_order head requests disk_size :
  seek_sequence (fcfs head requests disk_size) = head :: requests ∧
  drop 1 (seek_sequence (fcfs head requests disk_size)) = requests ∧
  requests_after (fcfs head requests disk_size) = requests.
Proof. done. Qed.

(** C8: on an empty request queue every algorithm, [scan] with any
    direction, returns the sequence [[head]] and the total 0, whatever the
    head position and the disk size. *)
Theorem empty_queue a head disk_size :
  run a head [] disk_size = Returned (Call [head] 0 []).
Proof.
  destruct a; try done.
  simpl. unfold scan. by case_decide.
Qed.

(** C9: [scan] with a direction other than ["right"] returns what it
    returns with ["left"], and leaves the queue object the same. *)
Theorem scan_direction_not_right head requests disk_size direction :
  direction ≠ "right"%string →
  scan head requests disk_size direction =
  scan head requests disk_size "left".
Proof.
  intros Hd. unfold scan.
  rewrite (decide_False (P := direction = "right"%string)) by done.
  by rewrite (decide_False (P := "left"%string = "right"%string)).
Qed.

(** A direction that is neither ["right"] nor ["left"]. *)
Lemma scan_direction_not_right_witness :
  "up"%string ≠ "right"%string ∧
  scan 50 [98; 37] 200 "up" = scan 50 [98; 37] 200 "left".
Proof.
  split; [discriminate|].
  apply (scan_direction_not_right 50 [98; 37] 200 "up"). discriminate.
Defined.

(** C10: [c_look] and [c_scan] both visit the requests [>= head] in
    ascending order and then the requests [< head] in ascending order.
    When some request lies below the head, the sequence of [c_scan] holds
    [disk_size - 1] and [0] right after the requests [>= head], and the
    sequence of [c_look] is that of [c_scan] without these two entries;
    when none does, the two sequences are the same. *)
Theorem c_look_is_c_scan_without_stops head requests disk_size :
  let right := sort (filter (λ r, r >= head) requests) in
  let left := sort (filter (λ r, r < head) requests) in
  let k := S (length right) in
  seek_sequence (c_look head requests disk_size) = head :: right ++ left ∧
  (Exists (λ r, r < head) requests →
     seek_sequence (c_scan head requests disk_size) !! k = Some (disk_size - 1) ∧
     seek_sequence (c_scan head requests disk_size) !! S k = Some 0 ∧
     seek_sequence (c_look head requests disk_size) =
       without_pair_at k (seek_sequence (c_scan head requests disk_size))) ∧
  (¬ Exists (λ r, r < head) requests →
     seek_sequence (c_look head requests disk_size) =
     seek_sequence (c_scan head requests disk_size)).
Proof.
  intros right left k. split; [apply c_look_sequence|]. split.
  - intros Hex. rewrite c_scan_sequence, c_look_sequence.
    unfold boundary_stops. rewrite decide_True by done.
    fold right left. unfold k, without_pair_at.
    change (head :: right ++ [disk_size - 1; 0] ++ left)
      with ((head :: right) ++ [disk_size - 1; 0] ++ left).
    replace (S (length right)) with (length (head :: right)) by done.
    split; [by rewrite lookup_app_r, Nat.sub_diag by lia|].
    split.
    { rewrite lookup_app_r by lia.
      by replace (S (length (head :: right)) - length (head :: right))%nat
        with 1%nat by lia. }
    rewrite take_app_length.
    rewrite drop_app_ge by lia.
    by replace (length (head :: right) + 2 - length (head :: right))%nat
      with 2%nat by lia.
  - intros Hno. rewrite c_scan_sequence, c_look_sequence.
    unfold boundary_stops. by rewrite decide_False.
Qed.

(** On the scenario, [c_look] is [c_scan] without the entries at positions
    7 and 8. *)
Lemma c_look_is_c_scan_without_stops_witness :
  Exists (λ r, r < 50) [98; 183; 37; 122; 14; 124; 65; 67] ∧
  seek_sequence (c_look 50 [98; 183; 37; 122; 14; 124; 65; 67] 200) =
  without_pair_at 7 [50; 65; 67; 98; 122; 124; 183; 199; 0; 14; 37].
Proof.
  assert (Exists (λ r, r < 50) [98; 183; 37; 122; 14; 124; 65; 67]) as Hex.
  { do 2 apply Exists_cons_tl. apply Exists_cons_hd. reflexivity. }
  split; [exact Hex|].
  destruct (c_look_is_c_scan_without_stops 50
              [98; 183; 37; 122; 14; 124; 65; 67] 200)
    as (_ & Hbelow & _).
  destruct (Hbelow Hex) as (_ & _ & Hlook).
  rewrite Hlook. vm_compute. reflexivity.
Defined.

(** C2, as the code has it: the algorithms work on the list object they are
    given.  [fcfs] leaves it as it was, [sstf] leaves it empty, [scan],
    [c_scan] and [c_look] leave it sorted in ascending order.  A second
    call on the same list object returns the same sequence and total for
    every algorithm but [sstf].  The copy is made by the caller:
    [run_simulation] hands each algorithm [list(requests)], so every list
    object of the store it started with, its own [requests] among them,
    ends with the contents it had, and every algorithm answers for these
    contents. *)
Theorem caller_queue_after_calls head requests disk_size
    (l : nat) (σ : gmap nat (list Z)) :
  (∀ a, ∃ c, run a head requests disk_size = Returned c ∧
             requests_after c =
               match a with
               | FCFS => requests
               | SSTF => []
               | SCAN _ | C_SCAN | C_LOOK => sort requests
               end) ∧
  (∀ a, a ≠ SSTF →
        ∃ c, run a head requests disk_size = Returned c ∧
             run a head (requests_after c) disk_size = Returned c) ∧
  (∃ results σ',
      run_simulation head l disk_size (<[l := requests]> σ)
        = Returned (results, σ') ∧
      σ' !! l = Some requests ∧
      (∀ l', is_Some (<[l := requests]> σ !! l') →
             σ' !! l' = <[l := requests]> σ !! l') ∧
      answers head requests disk_size algorithms results).
Proof.
  split; [|split].
  - intros a. destruct (run_returns a head requests disk_size) as (c & Hc & _).
    exists c. split; [done|]. by apply (run_requests_after a head requests disk_size).
  - intros a Ha. destruct (run_returns a head requests disk_size) as (c & Hc & _).
    exists c. split; [done|]. by apply (run_again a head requests).
  - destruct (run_algorithms_spec algorithms head l disk_size requests
                (<[l := requests]> σ)) as (results & σ' & Hrun & Hσ' & Hres).
    { apply lookup_insert_eq. }
    exists results, σ'. split; [done|]. split; [|done].
    rewrite Hσ'; rewrite lookup_insert_eq; [done | by eexists].
Qed.

(** C2 fails as stated: [sstf] called on a list object holding 98, 37
    returns the sequence 50, 37, 98 and leaves the object empty, and a
    second call on the same object returns the sequence 50 and the total
    0; [scan] leaves its list object holding 37, 98. *)
Lemma sstf_empties_the_caller_queue :
  (∃ σ', call_on SSTF 50 0 200 ({[ 0%nat := [98; 37] ]} : gmap nat (list Z))
           = Returned (([50; 37; 98], 74), σ') ∧
         σ' !! 0%nat = Some [] ∧
         ∃ σ'', call_on SSTF 50 0 200 σ' = Returned (([50], 0), σ'')) ∧
  (∃ σ', call_on (SCAN "right") 50 0 200
           ({[ 0%nat := [98; 37] ]} : gmap nat (list Z))
           = Returned (([50; 98; 199; 37], 311), σ') ∧
         σ' !! 0%nat = Some [37; 98]).
Proof.
  split.
  - eexists. split; [|split].
    + unfold call_on. rewrite lookup_singleton_eq. reflexivity.
    + simpl. apply lookup_insert_eq.
    + eexists. unfold call_on. rewrite lookup_insert_eq. reflexivity.
  - eexists. split.
    + unfold call_on. rewrite lookup_singleton_eq. reflexivity.
    + apply lookup_insert_eq.
Qed.

(** ** More on [sstf]: the order of service *)

Section sstf_order.

(** The sequence the loop starts with is only extended. *)
Lemma sstf_loop_prefix fuel current_head seek_sequence requests :
  sstf_loop fuel current_head seek_sequence requests =
  bind (sstf_loop fuel current_head [] requests)
       (λ '(visited, rest), Returned (seek_sequence ++ visited, rest)).
Proof.
  revert current_head seek_sequence requests.
  induction fuel as [|fuel IH]; intros current_head seek_sequence requests.
  - destruct requests; simpl; [by rewrite app_nil_r | done].
  - destruct requests as [|r requests]; simpl; [by rewrite app_nil_r|].
    set (closest_req := min_key_from _ r requests).
    destruct (remove_elem closest_req (r :: requests)) as (rest & Hrm & _).
    { apply min_key_from_elem. }
    simpl in Hrm. rewrite Hrm.
    rewrite IH, (IH _ [closest_req]).
    destruct (sstf_loop fuel _ [] rest) as [[visited rest']| | |]; simpl;
      [|done..].
    by rewrite <-app_assoc.
Qed.

Lemma sstf_loop_greedy fuel current_head seek_sequence requests :
  (length requests ≤ fuel)%nat →
  ∃ visited,
    sstf_loop fuel current_head seek_sequence requests
      = Returned (seek_sequence ++ visited, []) ∧
    visited ≡ₚ requests ∧ greedy current_head visited.
Proof.
  revert current_head seek_sequence requests.
  induction fuel as [|fuel IH]; intros current_head seek_sequence requests Hlen.
  - destruct requests; [|simpl in Hlen; lia].
    exists []. by rewrite app_nil_r.
  - destruct requests as [|r requests].
    { exists []. by rewrite app_nil_r. }
    simpl sstf_loop.
    set (key := λ x, Z.abs (x - current_head)).
    set (closest_req := min_key_from key r requests).
    destruct (remove_elem closest_req (r :: requests)) as (rest & Hrm & Hp).
    { apply min_key_from_elem. }
    simpl in Hrm. rewrite Hrm.
    assert (length rest ≤ fuel)%nat as Hrest.
    { apply Permutation_length in Hp. simpl in *. lia. }
    destruct (IH closest_req (seek_sequence ++ [closest_req]) rest Hrest)
      as (visited & -> & Hv & Hg).
    exists (closest_req :: visited). split; [by rewrite <-app_assoc|].
    split; [by rewrite Hp, Hv|]. split; [|done].
    rewrite Hv, <-Hp. apply Forall_forall. intros y Hy.
    by apply (min_key_from_le key).
Qed.

(** [min] answers with the first element of least key. *)
Lemma min_key_from_keeps key best l :
  Forall (λ y, key best ≤ key y) l → min_key_from key best l = best.
Proof.
  unfold min_key_from. induction 1 as [|y l Hy _ IH]; simpl; [done|].
  by rewrite decide_False by lia.
Qed.

Lemma min_key_first key l1 x l2 :
  Forall (λ y, key x < key y) l1 →
  Forall (λ y, key x ≤ key y) l2 →
  min_key key (l1 ++ x :: l2) = Some x.
Proof.
  intros H1 H2. destruct l1 as [|b l1]; simpl.
  { by rewrite min_key_from_keeps. }
  f_equal. unfold min_key_from. rewrite fold_left_app. simpl.
  fold (min_key_from key b l1).
  pose proof (min_key_from_elem key b l1) as Hin.
  eapply Forall_forall in H1; [|exact Hin].
  rewrite decide_True by done. by apply min_key_from_keeps.
Qed.

Lemma remove_first x l1 l2 : x ∉ l1 → remove x (l1 ++ x :: l2) = Some (l1 ++ l2).
Proof.
  induction l1 as [|y l1 IH]; intros Hx; simpl.
  - by rewrite decide_True.
  - apply not_elem_of_cons in Hx as [? ?].
    rewrite decide_False by done. by rewrite IH.
Qed.

(** One iteration of the loop. *)
Lemma sstf_loop_step fuel current_head seek_sequence requests x rest :
  min_key (λ y, Z.abs (y - current_head)) requests = Some x →
  remove x requests = Some rest →
  sstf_loop (S fuel) current_head seek_sequence requests =
  sstf_loop fuel x (seek_sequence ++ [x]) rest.
Proof.
  intros Hmin Hrm. destruct requests as [|r rs]; [done|].
  cbn [sstf_loop]. rewrite Hmin. cbn zeta. by rewrite Hrm.
Qed.

End sstf_order.

(** X1: [sstf] is greedy.  It returns the head position followed by the
    requests in an order in which every request serviced is, among those
    not yet serviced, one nearest to the position the head is at. *)
Theorem sstf_is_greedy head requests disk_size :
  ∃ visited,
    sstf head requests disk_size =
      Returned (Call (head :: visited) (total_seek_of (head :: visited)) []) ∧
    visited ≡ₚ requests ∧ greedy head visited.
Proof.
  unfold sstf.
  destruct (sstf_loop_greedy (length requests) head [head] requests)
    as (visited & -> & Hv & Hg); [done|].
  by exists visited.
Qed.

(** X2: the tie-break of [sstf].  When [x] is nearer to the head than every
    request before it in the queue and no request after it is nearer, [sstf]
    services [x] first and goes on as [sstf] does from [x] on the queue
    without that entry: among equally near requests the first in the queue
    wins. *)
Theorem sstf_first_nearest head l1 x l2 disk_size :
  Forall (λ y, Z.abs (x - head) < Z.abs (y - head)) l1 →
  Forall (λ y, Z.abs (x - head) ≤ Z.abs (y - head)) l2 →
  ∃ visited,
    sstf head (l1 ++ x :: l2) disk_size =
      Returned (Call (head :: x :: visited)
                     (total_seek_of (head :: x :: visited)) []) ∧
    sstf x (l1 ++ l2) disk_size =
      Returned (Call (x :: visited) (total_seek_of (x :: visited)) []).
Proof.
  intros H1 H2.
  destruct (sstf_returns x (l1 ++ l2) disk_size) as (visited & Hx & _).
  exists visited. split; [|done].
  unfold sstf in *. rewrite length_app. simpl length.
  replace (length l1 + S (length l2))%nat with (S (length (l1 ++ l2)))
    by (rewrite length_app; lia).
  assert (x ∉ l1) as Hnot.
  { intros Hin. eapply Forall_forall in H1; [|exact Hin]. lia. }
  rewrite (sstf_loop_step _ _ _ _ x (l1 ++ l2));
    [|by apply min_key_first|by apply remove_first].
  rewrite sstf_loop_prefix. rewrite sstf_loop_prefix in Hx.
  destruct (sstf_loop (length (l1 ++ l2)) x [] (l1 ++ l2))
    as [[v rest]| | |]; simpl in *; [|done..].
  injection Hx as Hv _ Hr. by subst.
Qed.

(** Two requests 10 away from the head: the earlier one, 40, is
    serviced first. *)
Lemma sstf_first_nearest_witness :
  ∃ visited,
    sstf 50 ([98] ++ 40 :: [60]) 200 =
      Returned (Call (50 :: 40 :: visited)
                     (total_seek_of (50 :: 40 :: visited)) []) ∧
    sstf 40 ([98] ++ [60]) 200 =
      Returned (Call (40 :: visited) (total_seek_of (40 :: visited)) []).
Proof.
  apply (sstf_first_nearest 50 [98] 40 [60] 200).
  - apply Forall_singleton. simpl. lia.
  - apply Forall_singleton. simpl. lia.
Defined.

(** ** More on the seek total: paths *)

Section paths.

(** The cost of a path splits at any of its stops. *)
Lemma path_cost_app_mid l1 x l2 :
  path_cost (l1 ++ x :: l2) = path_cost (l1 ++ [x]) + path_cost (x :: l2).
Proof.
  induction l1 as [|a l1 IH]; [simpl; lia|].
  destruct l1 as [|b l1]; [simpl; lia|].
  change (path_cost ((a :: b :: l1) ++ x :: l2))
    with (Z.abs (b - a) + path_cost ((b :: l1) ++ x :: l2)).
  change (path_cost ((a :: b :: l1) ++ [x]))
    with (Z.abs (b - a) + path_cost ((b :: l1) ++ [x])).
  lia.
Qed.

(** A path is at least as long as the way to any of its stops. *)
Lemma path_cost_reach a l x : x ∈ l → Z.abs (x - a) ≤ path_cost (a :: l).
Proof.
  revert a. induction l as [|b l IH]; intros a Hx.
  { by apply elem_of_nil in Hx. }
  change (path_cost (a :: b :: l)) with (Z.abs (b - a) + path_cost (b :: l)).
  pose proof (path_cost_nonneg (b :: l)).
  apply elem_of_cons in Hx as [->|Hx]; [lia|].
  specialize (IH b Hx). lia.
Qed.

(** Leaving a stop out never makes a path longer. *)
Lemma path_cost_skip_one l1 x l2 :
  path_cost (l1 ++ l2) ≤ path_cost (l1 ++ x :: l2).
Proof.
  induction l1 as [|a l1 IH].
  - simpl app. destruct l2 as [|y l2]; [done|].
    change (path_cost (x :: y :: l2))
      with (Z.abs (y - x) + path_cost (y :: l2)). lia.
  - destruct l1 as [|b l1].
    + simpl app. destruct l2 as [|y l2]; [apply (path_cost_nonneg [a; x])|].
      change (path_cost (a :: x :: y :: l2))
        with (Z.abs (x - a) + (Z.abs (y - x) + path_cost (y :: l2))).
      change (path_cost (a :: y :: l2))
        with (Z.abs (y - a) + path_cost (y :: l2)). lia.
    + change (path_cost ((a :: b :: l1) ++ l2))
        with (Z.abs (b - a) + path_cost ((b :: l1) ++ l2)).
      change (path_cost ((a :: b :: l1) ++ x :: l2))
        with (Z.abs (b - a) + path_cost ((b :: l1) ++ x :: l2)). lia.
Qed.

Lemma path_cost_skip l1 stops l2 :
  path_cost (l1 ++ l2) ≤ path_cost (l1 ++ stops ++ l2).
Proof.
  induction stops as [|x stops IH]; [done|].
  etrans; [apply IH|]. apply path_cost_skip_one.
Qed.

(** A path that only rises costs its rise; one that only falls, its
    fall. *)
Lemma path_cost_ascending a l b :
  StronglySorted Z.le (a :: l ++ [b]) → path_cost (a :: l ++ [b]) = b - a.
Proof.
  revert a. induction l as [|c l IH]; intros a Hs.
  - apply StronglySorted_cons in Hs as [Ha _].
    apply Forall_inv in Ha.
    change (path_cost (a :: [] ++ [b])) with (Z.abs (b - a) + 0). lia.
  - apply StronglySorted_cons in Hs as [Ha Hs].
    apply Forall_inv in Ha as Hac.
    change (path_cost (a :: (c :: l) ++ [b]))
      with (Z.abs (c - a) + path_cost (c :: l ++ [b])).
    rewrite (IH c Hs). lia.
Qed.

Lemma path_cost_descending a l b :
  StronglySorted (flip Z.le) (a :: l ++ [b]) →
  path_cost (a :: l ++ [b]) = a - b.
Proof.
  revert a. induction l as [|c l IH]; intros a Hs.
  - apply StronglySorted_cons in Hs as [Ha _].
    apply Forall_inv in Ha. unfold flip in Ha.
    change (path_cost (a :: [] ++ [b])) with (Z.abs (b - a) + 0). lia.
  - apply StronglySorted_cons in Hs as [Ha Hs].
    apply Forall_inv in Ha as Hac. unfold flip in Hac.
    change (path_cost (a :: (c :: l) ++ [b]))
      with (Z.abs (c - a) + path_cost (c :: l ++ [b])).
    rewrite (IH c Hs). lia.
Qed.

(** A sorted list ends with its greatest and starts with its least
    element. *)
Lemma sorted_ends_with_max l M :
  StronglySorted Z.le l → M ∈ l → Forall (λ r, r ≤ M) l →
  ∃ l', l = l' ++ [M].
Proof.
  intros Hs HM Hle.
  destruct (last l) as [z|] eqn:Hlast.
  - apply last_Some in Hlast as [l' ->]. exists l'.
    assert (z ≤ M).
    { eapply Forall_forall in Hle; [exact Hle|].
      apply elem_of_app. right. by left. }
    apply elem_of_app in HM as [HM|HM].
    + assert (M ≤ z) as HMz.
      { eapply (StronglySorted_app_1_elem_of Z.le);
          [exact Hs | exact HM | by left]. }
      by replace z with M by lia.
    + apply list_elem_of_singleton in HM. by subst.
  - apply last_None in Hlast. subst. by apply elem_of_nil in HM.
Qed.

Lemma sorted_starts_with_min l m :
  StronglySorted Z.le l → m ∈ l → Forall (λ r, m ≤ r) l →
  ∃ l', l = m :: l'.
Proof.
  intros Hs Hm Hle. destruct l as [|z l]; [by apply elem_of_nil in Hm|].
  exists l. f_equal.
  apply Forall_cons in Hle as [? _].
  apply StronglySorted_cons in Hs as [Hz _].
  apply elem_of_cons in Hm as [->|Hm]; [done|].
  eapply Forall_forall in Hz; [|exact Hm]. lia.
Qed.

Lemma filter_all (P : Z → Prop) `{∀ x, Decision (P x)} l :
  Forall P l → filter P l = l.
Proof.
  induction 1 as [|x l Hx _ IH]; [done|].
  by rewrite filter_cons, decide_True, IH.
Qed.

Lemma boundary_stops_in_range a head requests disk_size :
  0 < disk_size →
  Forall (λ y, 0 ≤ y ≤ disk_size - 1)
         (boundary_stops a head requests disk_size).
Proof.
  intros Hd. destruct a; simpl; repeat case_decide;
    repeat (constructor; try lia).
Qed.

End paths.

(** On a checked input no algorithm leaves the disk. *)
Lemma run_in_range a head requests disk_size :
  valid_input head requests disk_size →
  ∃ c, run a head requests disk_size = Returned c ∧
       Forall (λ y, 0 ≤ y ≤ disk_size - 1) (seek_sequence c).
Proof.
  intros [Hh Hr].
  destruct (run_sequence_shape a head requests disk_size)
    as (c & before & after & Hrun & Hseq & Hperm).
  exists c. split; [done|]. rewrite Hseq.
  rewrite <-Hperm in Hr. apply Forall_app in Hr as [Hb Ha].
  apply Forall_cons. split; [lia|].
  rewrite !Forall_app. split; [|split].
  - eapply Forall_impl; [exact Hb|]. simpl. lia.
  - apply boundary_stops_in_range. lia.
  - eapply Forall_impl; [exact Ha|]. simpl. lia.
Qed.

(** X3: on an input that passed the checks of [get_inputs], every cylinder
    of every algorithm's seek sequence, boundary stops included, lies in
    [0, disk_size - 1]. *)
Theorem sequence_in_range a head requests disk_size :
  valid_input head requests disk_size →
  ∃ c, run a head requests disk_size = Returned c ∧
       Forall (λ y, 0 ≤ y ≤ disk_size - 1) (seek_sequence c).
Proof. apply run_in_range. Qed.

(** [scan] toward the minimum on the form's default input: the stops stay
    on the disk. *)
Lemma sequence_in_range_witness :
  valid_input 50 [98; 183; 37; 122; 14; 124; 65; 67] 200 ∧
  ∃ c, run (SCAN "left") 50 [98; 183; 37; 122; 14; 124; 65; 67] 200
         = Returned c ∧
       Forall (λ y, 0 ≤ y ≤ 200 - 1) (seek_sequence c).
Proof.
  assert (valid_input 50 [98; 183; 37; 122; 14; 124; 65; 67] 200) as Hv.
  { split; [lia|]. repeat (constructor; [lia|]). constructor. }
  split; [exact Hv|].
  exact (sequence_in_range (SCAN "left") 50
           [98; 183; 37; 122; 14; 124; 65; 67] 200 Hv).
Defined.

(** X4: the order of the queue does not matter to the sweeps.  On two
    queues with the same requests, [scan] (in either direction), [c_scan]
    and [c_look] return the same sequence and total and leave the same
    contents in the queue. *)
Theorem sweeps_ignore_queue_order head requests requests' disk_size direction :
  requests ≡ₚ requests' →
  scan head requests disk_size direction =
    scan head requests' disk_size direction ∧
  c_scan head requests disk_size = c_scan head requests' disk_size ∧
  c_look head requests disk_size = c_look head requests' disk_size.
Proof.
  intros Hp. unfold scan, c_scan, c_look.
  by rewrite (sort_perm _ _ Hp).
Qed.

Lemma sweeps_ignore_queue_order_witness :
  [98; 37; 65] ≡ₚ [65; 98; 37] ∧
  scan 50 [98; 37; 65] 200 "left" = scan 50 [65; 98; 37] 200 "left" ∧
  c_scan 50 [98; 37; 65] 200 = c_scan 50 [65; 98; 37] 200 ∧
  c_look 50 [98; 37; 65] 200 = c_look 50 [65; 98; 37] 200.
Proof.
  assert ([98; 37; 65] ≡ₚ [65; 98; 37]) as Hp.
  { change ([98; 37] ++ [65] ≡ₚ [65] ++ [98; 37]). apply Permutation_app_comm. }
  split; [exact Hp|].
  exact (sweeps_ignore_queue_order 50 [98; 37; 65] [65; 98; 37] 200 "left" Hp).
Defined.

(** X5: when no request lies below the head, [scan] toward the maximum,
    [c_scan] and [c_look] return the same sequence, the head position
    followed by the sorted queue, with no boundary stop, and the same
    total. *)
Theorem sweeps_agree_above_head head requests disk_size :
  Forall (λ r, r >= head) requests →
  scan head requests disk_size "right" = c_look head requests disk_size ∧
  c_scan head requests disk_size = c_look head requests disk_size ∧
  seek_sequence (c_look head requests disk_size) = head :: sort requests.
Proof.
  intros Hall.
  assert (filter (λ r, r < head) (sort requests) = []) as Hleft.
  { apply filter_nil_Forall. rewrite sort_Permutation.
    eapply Forall_impl; [exact Hall|]. simpl. lia. }
  assert (filter (λ r, r >= head) (sort requests) = sort requests) as Hright.
  { apply filter_all. by rewrite sort_Permutation. }
  unfold scan, c_scan, c_look. rewrite decide_True by done.
  simpl. by rewrite Hleft, Hright.
Qed.

Lemma sweeps_agree_above_head_witness :
  Forall (λ r, r >= 50) [98; 183; 65] ∧
  scan 50 [98; 183; 65] 200 "right" = c_look 50 [98; 183; 65] 200 ∧
  c_scan 50 [98; 183; 65] 200 = c_look 50 [98; 183; 65] 200 ∧
  seek_sequence (c_look 50 [98; 183; 65] 200) = 50 :: sort [98; 183; 65].
Proof.
  assert (Forall (λ r, r >= 50) [98; 183; 65]) as Hall.
  { repeat (constructor; [lia|]). constructor. }
  split; [exact Hall|].
  exact (sweeps_agree_above_head 50 [98; 183; 65] 200 Hall).
Defined.

(** X6: [c_look] never costs more than [c_scan], on any input. *)
Theorem c_look_le_c_scan head requests disk_size :
  total_seek (c_look head requests disk_size) ≤
  total_seek (c_scan head requests disk_size).
Proof.
  pose proof (c_look_sequence head requests disk_size) as Hl.
  pose proof (c_scan_sequence head requests disk_size) as Hs.
  change (total_seek (c_look head requests disk_size))
    with (total_seek_of (seek_sequence (c_look head requests disk_size))).
  change (total_seek (c_scan head requests disk_size))
    with (total_seek_of (seek_sequence (c_scan head requests disk_size))).
  rewrite !total_seek_of_path_cost, Hl, Hs.
  apply (path_cost_skip (head :: _)).
Qed.

(** X7: no algorithm gets away with less than the way from the head to a
    request: for every request [r] of the queue the total seek distance is
    at least [|r - head|]. *)
Theorem total_seek_reaches_every_request a head requests disk_size r :
  r ∈ requests →
  ∃ c, run a head requests disk_size = Returned c ∧
       Z.abs (r - head) ≤ total_seek c.
Proof.
  intros Hr.
  destruct (run_sequence_shape a head requests disk_size)
    as (c & before & after & Hrun & Hseq & Hperm).
  destruct (run_returns a head requests disk_size) as (c' & Hrun' & Htot).
  assert (c' = c) as -> by congruence.
  exists c. split; [done|]. rewrite Htot, Hseq.
  apply path_cost_reach.
  rewrite <-Hperm in Hr. apply elem_of_app in Hr.
  rewrite !elem_of_app. tauto.
Qed.

Lemma total_seek_reaches_every_request_witness :
  183 ∈ [98; 183; 37] ∧
  ∃ c, run SSTF 50 [98; 183; 37] 200 = Returned c ∧
       Z.abs (183 - 50) ≤ total_seek c.
Proof.
  assert (183 ∈ [98; 183; 37]) as Hin by (right; left).
  split; [exact Hin|].
  exact (total_seek_reaches_every_request SSTF 50 [98; 183; 37] 200 183 Hin).
Defined.

(** ** The sweeps: runs and their cost *)

Section sweeps.

Local Instance flip_le_transitive : Transitive (flip Z.le).
Proof. intros x y z; unfold flip; lia. Qed.

Lemma reverse_sorted l :
  StronglySorted Z.le l → StronglySorted (flip Z.le) (reverse l).
Proof.
  intros Hl. apply Sorted_StronglySorted; [apply _|].
  by apply Sorted_reverse, StronglySorted_Sorted.
Qed.

(** Rising from [a] through a sorted run up to [b]. *)
Lemma rising_run_cost a l b :
  StronglySorted Z.le l → Forall (λ r, a ≤ r ≤ b) l → a ≤ b →
  path_cost (a :: l ++ [b]) = b - a.
Proof.
  intros Hl Hab Hle. apply path_cost_ascending.
  apply StronglySorted_cons. split.
  - apply Forall_app. split; [|by apply Forall_singleton].
    eapply Forall_impl; [exact Hab|]. simpl. lia.
  - apply StronglySorted_app_2; [|done|repeat constructor].
    intros x1 x2 H1 ->%list_elem_of_singleton.
    eapply Forall_forall in Hab; [|exact H1]. lia.
Qed.

(** Falling from [a] through a sorted run, read backwards, down to [b]. *)
Lemma falling_run_cost a l b :
  StronglySorted Z.le l → Forall (λ r, b ≤ r ≤ a) l → b ≤ a →
  path_cost (a :: reverse l ++ [b]) = a - b.
Proof.
  intros Hl Hab Hle. apply path_cost_descending.
  apply StronglySorted_cons. split.
  - apply Forall_app. split; [|by apply Forall_singleton].
    apply Forall_reverse. eapply Forall_impl; [exact Hab|].
    unfold flip. simpl. lia.
  - apply StronglySorted_app_2; [|by apply reverse_sorted|repeat constructor].
    intros x1 x2 H1 ->%list_elem_of_singleton.
    rewrite elem_of_reverse in H1.
    eapply Forall_forall in Hab; [|exact H1]. unfold flip. lia.
Qed.

(** A sorted run from its least to its greatest element. *)
Lemma sorted_run_cost l m M :
  StronglySorted Z.le l → m ∈ l → M ∈ l →
  Forall (λ r, m ≤ r ≤ M) l →
  path_cost l = M - m.
Proof.
  intros Hl Hm HM Hb.
  destruct (sorted_starts_with_min l m Hl Hm) as [l' ->].
  { eapply Forall_impl; [exact Hb|]. simpl. lia. }
  destruct (sorted_ends_with_max (m :: l') M Hl HM) as [l'' Heq].
  { eapply Forall_impl; [exact Hb|]. simpl. lia. }
  destruct l'' as [|z l'']; simpl in Heq; injection Heq as -> ->.
  - simpl. lia.
  - apply rising_run_cost.
    + apply StronglySorted_cons in Hl as [_ Hl].
      by apply StronglySorted_app_1_l in Hl.
    + apply Forall_cons in Hb as [_ Hb]. by apply Forall_app in Hb as [? _].
    + eapply Forall_forall in Hb; [|exact HM]. lia.
Qed.

(** The two partitions, sorted. *)
Lemma right_run head requests :
  StronglySorted Z.le (sort (filter (λ r, r >= head) requests)) ∧
  ∀ r, r ∈ sort (filter (λ r, r >= head) requests) ↔ r ∈ requests ∧ r >= head.
Proof.
  split; [apply sort_sorted|]. intros r.
  rewrite sort_Permutation, list_elem_of_filter. tauto.
Qed.

Lemma left_run head requests :
  StronglySorted Z.le (sort (filter (λ r, r < head) requests)) ∧
  ∀ r, r ∈ sort (filter (λ r, r < head) requests) ↔ r ∈ requests ∧ r < head.
Proof.
  split; [apply sort_sorted|]. intros r.
  rewrite sort_Permutation, list_elem_of_filter. tauto.
Qed.

Lemma scan_total head requests disk_size direction :
  total_seek (scan head requests disk_size direction) =
  path_cost (seek_sequence (scan head requests disk_size direction)).
Proof. apply total_seek_of_path_cost. Qed.

Lemma c_scan_total head requests disk_size :
  total_seek (c_scan head requests disk_size) =
  path_cost (seek_sequence (c_scan head requests disk_size)).
Proof. apply total_seek_of_path_cost. Qed.

Lemma c_look_total head requests disk_size :
  total_seek (c_look head requests disk_size) =
  path_cost (seek_sequence (c_look head requests disk_size)).
Proof. apply total_seek_of_path_cost. Qed.

Lemma Forall_run (P Q : Z → Prop) `{∀ x, Decision (Q x)} l :
  Forall P l → Forall P (sort (filter Q l)).
Proof.
  intros Hl. rewrite sort_Permutation. apply Forall_forall.
  intros x [_ Hx]%list_elem_of_filter. by eapply Forall_forall in Hl.
Qed.

(** The run of the requests [>= head], then up to a stop [top]. *)
Lemma right_run_to_cost head requests top :
  Forall (λ r, r ≤ top) requests → head ≤ top →
  path_cost ((head :: sort (filter (λ r, r >= head) requests)) ++ [top])
    = top - head.
Proof.
  intros Htop Hle. apply rising_run_cost; [apply sort_sorted| |done].
  apply Forall_forall. intros r [Hr ?]%right_run.
  eapply Forall_forall in Htop; [|exact Hr]. simpl in Htop. lia.
Qed.

(** The run of the requests [< head] backwards, then down to a stop
    [bottom]. *)
Lemma left_run_to_cost head requests bottom :
  Forall (λ r, bottom ≤ r) requests → bottom ≤ head →
  path_cost ((head :: reverse (sort (filter (λ r, r < head) requests)))
               ++ [bottom]) = head - bottom.
Proof.
  intros Hbot Hle. apply falling_run_cost; [apply sort_sorted| |done].
  apply Forall_forall. intros r [Hr ?]%left_run.
  eapply Forall_forall in Hbot; [|exact Hr]. simpl in Hbot. lia.
Qed.

(** From a stop [bottom] up the run of the requests [>= head], whose
    greatest is [M]. *)
Lemma right_run_from_cost head requests bottom M :
  Forall (λ r, bottom ≤ r ≤ M) requests → M ∈ requests → M >= head →
  path_cost (bottom :: sort (filter (λ r, r >= head) requests)) = M - bottom.
Proof.
  intros Hb HM Hge.
  destruct (right_run head requests) as [Hs Hin].
  destruct (sorted_ends_with_max _ M Hs) as [l' Heq].
  { by apply Hin. }
  { apply Forall_run. eapply Forall_impl; [exact Hb|]. simpl. lia. }
  rewrite Heq. rewrite Heq in Hs.
  assert (Forall (λ r, bottom ≤ r ≤ M) (l' ++ [M])) as Hall.
  { rewrite <-Heq. by apply Forall_run. }
  apply rising_run_cost.
  - by apply StronglySorted_app_1_l in Hs.
  - by apply Forall_app in Hall as [? _].
  - eapply Forall_forall in Hb; [|exact HM]. simpl in Hb. lia.
Qed.

(** From a stop [bottom] up the run of the requests [< head], whose
    greatest is [M]. *)
Lemma left_run_from_cost head requests bottom M :
  Forall (λ r, bottom ≤ r) requests → M ∈ requests → M < head →
  Forall (λ r, r < head → r ≤ M) requests →
  path_cost (bottom :: sort (filter (λ r, r < head) requests)) = M - bottom.
Proof.
  intros Hb HM Hlt Hmax.
  destruct (left_run head requests) as [Hs Hin].
  assert (Forall (λ r, bottom ≤ r ≤ M)
            (sort (filter (λ r, r < head) requests))) as Hall.
  { apply Forall_forall. intros r [Hr ?]%Hin.
    eapply Forall_forall in Hb; [|exact Hr].
    eapply Forall_forall in Hmax; [|exact Hr]. simpl in *. lia. }
  destruct (sorted_ends_with_max _ M Hs) as [l' Heq].
  { by apply Hin. }
  { eapply Forall_impl; [exact Hall|]. simpl. lia. }
  rewrite Heq. rewrite Heq in Hs, Hall.
  apply rising_run_cost.
  - by apply StronglySorted_app_1_l in Hs.
  - by apply Forall_app in Hall as [? _].
  - eapply Forall_forall in Hb; [|exact HM]. simpl in Hb. lia.
Qed.

(** From a stop [top] down the run of the requests [< head] read
    backwards, whose least is [m]. *)
Lemma left_run_down_cost head requests top m :
  Forall (λ r, m ≤ r ≤ top) requests → m ∈ requests → m < head →
  path_cost (top :: reverse (sort (filter (λ r, r < head) requests)))
    = top - m.
Proof.
  intros Hb Hm Hlt.
  destruct (left_run head requests) as [Hs Hin].
  assert (Forall (λ r, m ≤ r ≤ top)
            (sort (filter (λ r, r < head) requests))) as Hall.
  { by apply Forall_run. }
  destruct (sorted_starts_with_min _ m Hs) as [l' Heq].
  { by apply Hin. }
  { eapply Forall_impl; [exact Hall|]. simpl. lia. }
  rewrite Heq. rewrite Heq in Hs, Hall. rewrite reverse_cons.
  apply falling_run_cost.
  - by apply StronglySorted_cons in Hs as [_ ?].
  - by apply Forall_cons in Hall as [_ ?].
  - eapply Forall_forall in Hb; [|exact Hm]. simpl in Hb. lia.
Qed.

End sweeps.

(** X8: [scan] toward the maximum returns the head position, then the
    requests [>= head] in ascending order and, when some request lies below
    the head, the stop [disk_size - 1] followed by the requests [< head] in
    descending order; with no request below the head it does not go to the
    boundary. *)
Theorem scan_toward_max head requests disk_size :
  let right := sort (filter (λ r, r >= head) requests) in
  let left := sort (filter (λ r, r < head) requests) in
  StronglySorted Z.le right ∧
  StronglySorted (flip Z.le) (reverse left) ∧
  right ++ reverse left ≡ₚ requests ∧
  (Exists (λ r, r < head) requests →
     seek_sequence (scan head requests disk_size "right") =
       head :: right ++ [disk_size - 1] ++ reverse left) ∧
  (¬ Exists (λ r, r < head) requests →
     seek_sequence (scan head requests disk_size "right") = head :: right).
Proof.
  intros right left.
  split; [apply sort_sorted|]. split; [apply reverse_sorted, sort_sorted|].
  split.
  { unfold right, left.
    rewrite reverse_Permutation, !sort_Permutation.
    apply partition_Permutation. }
  split.
  - intros Hex. rewrite scan_right_sequence. unfold boundary_stops.
    rewrite decide_True by done. by rewrite decide_True.
  - intros Hno. rewrite scan_right_sequence. unfold boundary_stops.
    rewrite decide_True by done. rewrite decide_False by done.
    destruct (partition_cases (λ r, r < head) requests)
      as [[_ ->]|[Hex _]]; [|contradiction].
    by rewrite !app_nil_r.
Qed.

(** X9: [scan] with any other direction returns the head position, then
    the requests [< head] in descending order and, when some request is
    [>= head], the stop [0] followed by the requests [>= head] in ascending
    order; with no such request it does not go to the boundary. *)
Theorem scan_toward_min head requests disk_size direction :
  direction ≠ "right"%string →
  let right := sort (filter (λ r, r >= head) requests) in
  let left := sort (filter (λ r, r < head) requests) in
  StronglySorted (flip Z.le) (reverse left) ∧
  StronglySorted Z.le right ∧
  reverse left ++ right ≡ₚ requests ∧
  (Exists (λ r, r >= head) requests →
     seek_sequence (scan head requests disk_size direction) =
       head :: reverse left ++ [0] ++ right) ∧
  (¬ Exists (λ r, r >= head) requests →
     seek_sequence (scan head requests disk_size direction) =
       head :: reverse left).
Proof.
  intros Hd right left.
  split; [apply reverse_sorted, sort_sorted|]. split; [apply sort_sorted|].
  split.
  { unfold right, left.
    rewrite reverse_Permutation, !sort_Permutation, Permutation_app_comm.
    apply partition_Permutation. }
  split.
  - intros Hex. rewrite scan_left_sequence by done. unfold boundary_stops.
    rewrite decide_False by done. by rewrite decide_True.
  - intros Hno. rewrite scan_left_sequence by done. unfold boundary_stops.
    rewrite decide_False by done. rewrite decide_False by done.
    destruct (partition_cases (λ r, r >= head) requests)
      as [[_ ->]|[Hex _]]; [|contradiction].
    by rewrite !app_nil_r.
Qed.

Lemma scan_toward_min_witness :
  "left"%string ≠ "right"%string ∧
  seek_sequence (scan 50 [98; 183; 37; 122; 14; 124; 65; 67] 200 "left") =
  [50; 37; 14; 0; 65; 67; 98; 122; 124; 183].
Proof.
  split; [discriminate|].
  destruct (scan_toward_min 50 [98; 183; 37; 122; 14; 124; 65; 67] 200 "left")
    as (_ & _ & _ & Hsome & _); [discriminate|].
  rewrite Hsome; [vm_compute; reflexivity|].
  apply Exists_cons_hd. lia.
Defined.

(** X10: the total of [scan] toward the maximum when it has to turn.  On
    a checked input whose least request [m] lies below the head, the head
    travels up to [disk_size - 1] and down to [m]: the total is
    [(disk_size - 1 - head) + (disk_size - 1 - m)]. *)
Theorem scan_toward_max_total head requests disk_size m :
  valid_input head requests disk_size →
  m ∈ requests → Forall (λ r, m ≤ r) requests → m < head →
  total_seek (scan head requests disk_size "right") =
  (disk_size - 1 - head) + (disk_size - 1 - m).
Proof.
  intros [Hh Hr] Hm Hmin Hlt.
  rewrite scan_total, scan_right_sequence. unfold boundary_stops.
  rewrite decide_True by done.
  rewrite decide_True by (apply Exists_exists; eauto).
  change (head :: ?r ++ [disk_size - 1] ++ ?l)
    with ((head :: r) ++ (disk_size - 1) :: l).
  rewrite path_cost_app_mid.
  rewrite right_run_to_cost; [|eapply Forall_impl; [exact Hr|simpl; lia]|lia].
  rewrite (left_run_down_cost head requests (disk_size - 1) m); [done| |done..].
  apply Forall_forall. intros r Hin.
  eapply Forall_forall in Hr; [|exact Hin].
  eapply Forall_forall in Hmin; [|exact Hin]. simpl in *. lia.
Qed.

Lemma scan_toward_max_total_witness :
  total_seek (scan 50 [98; 183; 37; 122; 14; 124; 65; 67] 200 "right") =
  (200 - 1 - 50) + (200 - 1 - 14).
Proof.
  apply (scan_toward_max_total 50 [98; 183; 37; 122; 14; 124; 65; 67] 200 14).
  - split; [lia|]. repeat (constructor; [lia|]). constructor.
  - do 4 right. left.
  - repeat (constructor; [lia|]). constructor.
  - lia.
Defined.

(** X11: the total of [scan] in the other direction when some request is
    [>= head].  On a checked input whose greatest request [M] is [>= head],
    the head travels down to [0] and up to [M]: the total is [head + M],
    also when no request lies below the head. *)
Theorem scan_toward_min_total head requests disk_size direction M :
  direction ≠ "right"%string →
  valid_input head requests disk_size →
  M ∈ requests → Forall (λ r, r ≤ M) requests → M >= head →
  total_seek (scan head requests disk_size direction) = head + M.
Proof.
  intros Hd [Hh Hr] HM Hmax Hge.
  rewrite scan_total, scan_left_sequence by done. unfold boundary_stops.
  rewrite decide_False by done.
  rewrite decide_True by (apply Exists_exists; eauto).
  change (head :: ?l ++ [0] ++ ?r) with ((head :: l) ++ 0 :: r).
  rewrite path_cost_app_mid.
  rewrite left_run_to_cost; [|eapply Forall_impl; [exact Hr|simpl; lia]|lia].
  rewrite (right_run_from_cost head requests 0 M); [lia| |done..].
  apply Forall_forall. intros r Hin.
  eapply Forall_forall in Hr; [|exact Hin].
  eapply Forall_forall in Hmax; [|exact Hin]. simpl in *. lia.
Qed.

(** No request lies below the head 50, and still the head goes to 0
    first. *)
Lemma scan_toward_min_total_witness :
  total_seek (scan 50 [98; 65] 200 "left") = 50 + 98.
Proof.
  apply (scan_toward_min_total 50 [98; 65] 200 "left" 98).
  - discriminate.
  - split; [lia|]. repeat (constructor; [lia|]). constructor.
  - left.
  - repeat (constructor; [lia|]). constructor.
  - lia.
Defined.

(** X12: the total of [c_scan] when it wraps.  On a checked input in
    which [M] is the greatest of the requests below the head, the head
    travels up to [disk_size - 1], across to [0] and up to [M]: the total
    is [(disk_size - 1 - head) + (disk_size - 1) + M]. *)
Theorem c_scan_wrap_total head requests disk_size M :
  valid_input head requests disk_size →
  M ∈ requests → M < head → Forall (λ r, r < head → r ≤ M) requests →
  total_seek (c_scan head requests disk_size) =
  (disk_size - 1 - head) + (disk_size - 1) + M.
Proof.
  intros [Hh Hr] HM Hlt Hmax.
  rewrite c_scan_total, c_scan_sequence. unfold boundary_stops.
  rewrite decide_True by (apply Exists_exists; eauto).
  change (head :: ?r ++ [disk_size - 1; 0] ++ ?l)
    with ((head :: r) ++ (disk_size - 1) :: 0 :: l).
  rewrite path_cost_app_mid.
  rewrite right_run_to_cost; [|eapply Forall_impl; [exact Hr|simpl; lia]|lia].
  change (path_cost (disk_size - 1 :: 0 :: ?l))
    with (Z.abs (0 - (disk_size - 1)) + path_cost (0 :: l)).
  rewrite (left_run_from_cost head requests 0 M); [lia| |done..].
  eapply Forall_impl; [exact Hr|]. simpl. lia.
Qed.

Lemma c_scan_wrap_total_witness :
  total_seek (c_scan 50 [98; 183; 37; 122; 14; 124; 65; 67] 200) =
  (200 - 1 - 50) + (200 - 1) + 37.
Proof.
  apply (c_scan_wrap_total 50 [98; 183; 37; 122; 14; 124; 65; 67] 200 37).
  - split; [lia|]. repeat (constructor; [lia|]). constructor.
  - do 2 right. left.
  - lia.
  - repeat (constructor; [lia|]). constructor.
Defined.

(** X13: the total of [c_look] when requests lie on both sides of the
    head.  With [M] the greatest request, [M >= head], [m] the least,
    [m < head], and [M'] the greatest of the requests below the head, the
    head travels up to [M], back to [m] and up to [M']: the total is
    [(M - head) + (M - m) + (M' - m)]. *)
Theorem c_look_wrap_total head requests disk_size m M M' :
  M ∈ requests → Forall (λ r, r ≤ M) requests → M >= head →
  m ∈ requests → Forall (λ r, m ≤ r) requests → m < head →
  M' ∈ requests → M' < head → Forall (λ r, r < head → r ≤ M') requests →
  total_seek (c_look head requests disk_size) =
  (M - head) + (M - m) + (M' - m).
Proof.
  intros HM Hmax Hge Hm Hmin Hlt HM' Hlt' Hmax'.
  rewrite c_look_total, c_look_sequence.
  destruct (right_run head requests) as [Hsr Hinr].
  destruct (left_run head requests) as [Hsl Hinl].
  set (right := sort (filter (λ r, r >= head) requests)) in *.
  set (left := sort (filter (λ r, r < head) requests)) in *.
  assert (path_cost left = M' - m) as Hleft.
  { apply sorted_run_cost; [done|by apply Hinl..|].
    apply Forall_forall. intros r [Hr ?]%Hinl.
    eapply Forall_forall in Hmin; [|exact Hr].
    eapply Forall_forall in Hmax'; [|exact Hr]. simpl in *. lia. }
  destruct (sorted_ends_with_max right M Hsr) as [r' Hreq].
  { by apply Hinr. }
  { by apply Forall_run. }
  destruct (sorted_starts_with_min left m Hsl) as [l' Hleq].
  { by apply Hinl. }
  { by apply Forall_run. }
  assert (path_cost ((head :: r') ++ [M]) = M - head) as Hrise.
  { apply rising_run_cost; [| |lia].
    - rewrite Hreq in Hsr. by apply StronglySorted_app_1_l in Hsr.
    - apply Forall_forall. intros r Hr.
      assert (r ∈ right) as [Hin ?]%Hinr.
      { rewrite Hreq. apply elem_of_app. by left. }
      eapply Forall_forall in Hmax; [|exact Hin]. simpl in Hmax. lia. }
  rewrite Hreq, <-app_assoc.
  change (head :: r' ++ [M] ++ left) with ((head :: r') ++ M :: left).
  rewrite path_cost_app_mid, Hrise.
  assert (path_cost (M :: left) = Z.abs (m - M) + path_cost left) as ->.
  { by rewrite Hleq. }
  rewrite Hleft. lia.
Qed.

Lemma c_look_wrap_total_witness :
  total_seek (c_look 50 [98; 183; 37; 122; 14; 124; 65; 67] 200) =
  (183 - 50) + (183 - 14) + (37 - 14).
Proof.
  apply (c_look_wrap_total 50 [98; 183; 37; 122; 14; 124; 65; 67] 200
           14 183 37).
  - right. left.
  - repeat (constructor; [lia|]). constructor.
  - lia.
  - do 4 right. left.
  - repeat (constructor; [lia|]). constructor.
  - lia.
  - do 2 right. left.
  - lia.
  - repeat (constructor; [lia|]). constructor.
Defined.

(** X14: the total of the three sweeps toward the maximum when no request
    lies below the head: with [M] the greatest request, [scan] toward the
    maximum, [c_scan] and [c_look] all cost [M - head]. *)
Theorem sweep_total_above_head head requests disk_size M :
  Forall (λ r, r >= head) requests →
  M ∈ requests → Forall (λ r, r ≤ M) requests →
  total_seek (scan head requests disk_size "right") = M - head ∧
  total_seek (c_scan head requests disk_size) = M - head ∧
  total_seek (c_look head requests disk_size) = M - head.
Proof.
  intros Hall HM Hmax.
  assert (filter (λ r, r < head) (sort requests) = []) as Hleft.
  { apply filter_nil_Forall. rewrite sort_Permutation.
    eapply Forall_impl; [exact Hall|]. simpl. lia. }
  assert (total_seek (c_look head requests disk_size) = M - head) as Hlook.
  { rewrite c_look_total, c_look_sequence.
    rewrite <-(filter_sort (λ r, r < head)), Hleft, app_nil_r.
    apply right_run_from_cost; [|done|].
    - apply Forall_forall. intros r Hr.
      eapply Forall_forall in Hall; [|exact Hr].
      eapply Forall_forall in Hmax; [|exact Hr]. simpl in *. lia.
    - eapply Forall_forall in Hall; [|exact HM]. done. }
  assert (scan head requests disk_size "right" = c_look head requests disk_size)
    as ->.
  { unfold scan, c_look. rewrite decide_True by done. simpl.
    by rewrite Hleft. }
  assert (c_scan head requests disk_size = c_look head requests disk_size)
    as ->.
  { unfold c_scan, c_look. simpl. by rewrite Hleft. }
  done.
Qed.

Lemma sweep_total_above_head_witness :
  total_seek (scan 50 [98; 183; 65] 200 "right") = 183 - 50 ∧
  total_seek (c_scan 50 [98; 183; 65] 200) = 183 - 50 ∧
  total_seek (c_look 50 [98; 183; 65] 200) = 183 - 50.
Proof.
  apply (sweep_total_above_head 50 [98; 183; 65] 200 183).
  - repeat (constructor; [lia|]). constructor.
  - right. left.
  - repeat (constructor; [lia|]). constructor.
Defined.

(** ** The form: what [get_inputs] lets through *)

Section form_input.

Lemma valid_input_checks head requests disk_size :
  valid_input head requests disk_size ↔
  ¬ ¬ (0 ≤ head < disk_size) ∧
  ¬ Exists (λ r, ¬ (0 ≤ r < disk_size)) requests.
Proof.
  unfold valid_input. split.
  - intros [Hh Hr]. split; [tauto|].
    rewrite <-Forall_Exists_neg.
    eapply Forall_impl; [exact Hr|]. simpl. tauto.
  - intros [Hh Hr]. split; [lia|].
    rewrite <-Forall_Exists_neg in Hr.
    eapply Forall_impl; [exact Hr|]. simpl. lia.
Qed.

(** [split] returns at least one piece. *)
Lemma str_split_not_nil sep s : str_split sep s ≠ [].
Proof.
  destruct s as [|c s]; simpl; [done|].
  case_decide; [done|]. by destruct (str_split sep s).
Qed.

Lemma get_inputs_inr py head_var disk_size_var requests_var
    head requests disk_size :
  get_inputs py head_var disk_size_var requests_var
    = inr (head, requests, disk_size) ↔
  int py head_var = Some head ∧
  int py disk_size_var = Some disk_size ∧
  strip py requests_var ≠ ""%string ∧
  mapM (λ r, int py (strip py r)) (str_split "," (strip py requests_var))
    = Some requests ∧
  valid_input head requests disk_size.
Proof.
  unfold get_inputs. rewrite valid_input_checks. split.
  - destruct (int py head_var) as [h|]; [|done].
    destruct (int py disk_size_var) as [d|]; [|done].
    simpl. case_decide; [done|].
    destruct (mapM _ _) as [rs|]; [|done].
    repeat case_decide; try done.
    intros [= -> -> ->]. tauto.
  - intros (-> & -> & Hne & -> & Hh & Hr). simpl.
    by rewrite !decide_False by done.
Qed.

End form_input.

(** X15: [get_inputs] returns [(head, requests, disk_size)] exactly when
    the head and disk size fields read as the integers [head] and
    [disk_size], the queue field is not blank, its pieces between commas
    read as the integers [requests], and [0 <= head < disk_size] and
    [0 <= r < disk_size] for every request. *)
Theorem get_inputs_accepts py head_var disk_size_var requests_var
    head requests disk_size :
  get_inputs py head_var disk_size_var requests_var
    = inr (head, requests, disk_size) ↔
  int py head_var = Some head ∧
  int py disk_size_var = Some disk_size ∧
  strip py requests_var ≠ ""%string ∧
  mapM (λ r, int py (strip py r)) (str_split "," (strip py requests_var))
    = Some requests ∧
  valid_input head requests disk_size.
Proof. apply get_inputs_inr. Qed.

(** X16: what [get_inputs] returns is fit for the algorithms: the head
    position and every request lie in [0, disk_size - 1], the disk size is
    positive, and the queue holds at least one request, one for each piece
    of the queue field. *)
Theorem get_inputs_result_valid py head_var disk_size_var requests_var
    head requests disk_size :
  get_inputs py head_var disk_size_var requests_var
    = inr (head, requests, disk_size) →
  valid_input head requests disk_size ∧
  0 < disk_size ∧
  requests ≠ [] ∧
  length requests = length (str_split "," (strip py requests_var)).
Proof.
  intros (_ & _ & _ & Hm & Hv)%get_inputs_inr.
  split; [done|]. split; [destruct Hv; lia|].
  apply length_mapM in Hm.
  split; [|done]. intros ->.
  by destruct (str_split_not_nil "," (strip py requests_var));
    apply nil_length_inv.
Qed.

Lemma get_inputs_result_valid_witness :
  get_inputs plain "50" "200" "98,183,37" = inr (50, [98; 183; 37], 200) ∧
  valid_input 50 [98; 183; 37] 200 ∧
  0 < 200 ∧
  [98; 183; 37] ≠ [] ∧
  length [98; 183; 37] = length (str_split "," (strip plain "98,183,37")).
Proof.
  assert (get_inputs plain "50" "200" "98,183,37"
            = inr (50, [98; 183; 37], 200)) as Hget by (vm_compute; reflexivity).
  split; [exact Hget|].
  exact (get_inputs_result_valid plain "50" "200" "98,183,37"
           50 [98; 183; 37] 200 Hget).
Defined.

(** X17: the message "Request Queue cannot be empty." is shown exactly
    when the head and disk size fields read as integers and the queue
    field is blank: a head or disk size that does not read as an integer
    is reported first, and the ranges are not looked at. *)
Theorem get_inputs_empty_queue py head_var disk_size_var requests_var :
  get_inputs py head_var disk_size_var requests_var
    = inl "Request Queue cannot be empty."%string ↔
  is_Some (int py head_var) ∧ is_Some (int py disk_size_var) ∧
  strip py requests_var = ""%string.
Proof.
  unfold get_inputs. split.
  - destruct (int py head_var) as [h|]; [|done].
    destruct (int py disk_size_var) as [d|]; [|done].
    simpl. case_decide; [by eauto|].
    destruct (mapM _ _) as [rs|]; [|done].
    repeat case_decide; done.
  - intros ([h ->] & [d ->] & ->). done.
Qed.

(** ** The form: the queue text that [generate_random_queue] writes *)

Section queue_text.

Lemma pretty_N_char_no_comma n : pretty_N_char n ≠ ","%char.
Proof. unfold pretty_N_char. by repeat case_match. Qed.

Lemma pretty_N_go_free x s :
  free_of "," s → free_of "," (pretty_N_go x s).
Proof.
  revert s. induction (N.lt_wf_0 x) as [x _ IH]; intros s Hs.
  destruct (decide (0 < x)%N) as [Hx|Hx].
  - rewrite pretty_N_go_step by done. apply IH.
    + by apply N.div_lt.
    + split; [apply pretty_N_char_no_comma | done].
  - assert (x = 0%N) as -> by lia. by rewrite pretty_N_go_0.
Qed.

Lemma pretty_N_go_nonempty x s :
  s ≠ ""%string → pretty_N_go x s ≠ ""%string.
Proof.
  revert s. induction (N.lt_wf_0 x) as [x _ IH]; intros s Hs.
  destruct (decide (0 < x)%N) as [Hx|Hx].
  - rewrite pretty_N_go_step by done. apply IH; [by apply N.div_lt | done].
  - assert (x = 0%N) as -> by lia. by rewrite pretty_N_go_0.
Qed.

Lemma pretty_positive_free (p : positive) : free_of "," (pretty p).
Proof.
  unfold pretty, pretty_positive, pretty, pretty_N.
  case_decide; [done|]. by apply pretty_N_go_free.
Qed.

Lemma pretty_positive_nonempty (p : positive) : pretty p ≠ ""%string.
Proof.
  unfold pretty, pretty_positive, pretty, pretty_N.
  case_decide; [done|].
  rewrite pretty_N_go_step by lia. by apply pretty_N_go_nonempty.
Qed.

(** The text of an integer holds no comma and is not empty. *)
Lemma str_free n : free_of "," (str n).
Proof.
  unfold str, pretty, pretty_Z. destruct n as [|p|p]; simpl.
  - by split.
  - apply pretty_positive_free.
  - split; [done|]. apply pretty_positive_free.
Qed.

Lemma str_nonempty n : str n ≠ ""%string.
Proof.
  unfold str, pretty, pretty_Z. destruct n as [|p|p]; simpl; [done| |done].
  apply pretty_positive_nonempty.
Qed.

(** Splitting at a separator undoes joining with it. *)
Lemma str_split_free sep s : free_of sep s → str_split sep s = [s].
Proof.
  induction s as [|c s IH]; [done|]. intros [Hc Hs]. simpl.
  rewrite decide_False by done. by rewrite IH.
Qed.

Lemma str_split_app sep piece rest :
  free_of sep piece →
  str_split sep (piece +:+ String sep rest) = piece :: str_split sep rest.
Proof.
  induction piece as [|c piece IH]; simpl.
  - intros _. by rewrite decide_True.
  - intros [Hc Hs]. rewrite decide_False by done. by rewrite IH.
Qed.

Lemma str_split_concat sep pieces :
  pieces ≠ [] → Forall (free_of sep) pieces →
  str_split sep (String.concat (String sep "") pieces) = pieces.
Proof.
  intros Hne Hfree. induction Hfree as [|x l Hx Hl IH]; [done|].
  destruct l as [|y l]; [by apply str_split_free|].
  change (String.concat (String sep "") (x :: y :: l))
    with (x +:+ String sep (String.concat (String sep "") (y :: l))).
  rewrite str_split_app by done. by rewrite IH.
Qed.

Lemma concat_nonempty sep x l :
  x ≠ ""%string → String.concat sep (x :: l) ≠ ""%string.
Proof. intros Hx. destruct l; simpl; [done|]. by destruct x. Qed.

End queue_text.

(** X18: what [generate_random_queue] writes, [get_inputs] reads back.
    When the disk size and count fields read as [disk_size] and [count]
    with [0 < count < disk_size], and the sample drawn holds [count]
    cylinders of [range(disk_size)], the queue field is set to their texts
    joined by commas and no message is shown; if [int] reads the text of
    each of them back, [strip] leaves the joined text as it is, and the
    head field reads as a cylinder of the disk, then [get_inputs] on that
    queue field returns the head, the sample in its order, and the disk
    size. *)
Theorem generate_then_get_inputs py sample
    head_var disk_size_var random_count_var requests_var
    head disk_size count :
  int py disk_size_var = Some disk_size →
  int py random_count_var = Some count →
  0 < count < disk_size →
  length (sample disk_size count) = Z.to_nat count →
  Forall (λ r, 0 ≤ r < disk_size) (sample disk_size count) →
  Forall (λ r, int py (strip py (str r)) = Some r) (sample disk_size count) →
  strip py (String.concat "," (str <$> sample disk_size count)) =
    String.concat "," (str <$> sample disk_size count) →
  int py head_var = Some head →
  0 ≤ head < disk_size →
  ∃ text,
    generate_random_queue py sample disk_size_var random_count_var requests_var
      = (None, text) ∧
    text = String.concat "," (str <$> sample disk_size count) ∧
    get_inputs py head_var disk_size_var text
      = inr (head, sample disk_size count, disk_size).
Proof.
  intros Hd Hc Hcount Hlen Hrange Hint Hstrip Hh Hhead.
  eexists. split; [|split; [reflexivity|]].
  { unfold generate_random_queue. rewrite Hd, Hc.
    rewrite decide_False by lia. by rewrite decide_False by lia. }
  set (requests := sample disk_size count) in *.
  assert (requests ≠ []) as Hne.
  { intros Heq. rewrite Heq in Hlen. simpl in Hlen. lia. }
  apply get_inputs_inr. rewrite Hstrip.
  split; [done|]. split; [done|]. split; [|split].
  - destruct requests as [|r rs]; [done|].
    apply concat_nonempty, str_nonempty.
  - rewrite str_split_concat.
    + apply mapM_Some, Forall2_fmap_l, Forall_Forall2_diag.
      eapply Forall_impl; [exact Hint|]. done.
    + by destruct requests.
    + apply Forall_fmap, Forall_forall. intros r _. apply str_free.
  - split; [lia|done].
Qed.

Lemma generate_then_get_inputs_witness :
  ∃ text,
    generate_random_queue plain (λ _ _, [7; 0; 3]) "10" "3" "98,183"
      = (None, text) ∧
    text = String.concat "," (str <$> [7; 0; 3]) ∧
    get_inputs plain "4" "10" text = inr (4, [7; 0; 3], 10).
Proof.
  apply (generate_then_get_inputs plain (λ _ _, [7; 0; 3])
           "4" "10" "3" "98,183" 4 10 3).
  - reflexivity.
  - reflexivity.
  - lia.
  - reflexivity.
  - repeat (constructor; [lia|]). constructor.
  - repeat (constructor; [vm_compute; reflexivity|]). constructor.
  - reflexivity.
  - reflexivity.
  - lia.
Defined.



(** ** The form: what [plot_on_axis] draws *)

Section drawing.

Lemma index_elem s i : (i < length s)%nat → index s i ∈ s.
Proof. intros Hi. apply list_elem_of_In. unfold index. by apply nth_In. Qed.

Lemma omap_fmap_Some {A B C} (f : B → option C) (g : A → B) (h : A → C)
    (l : list A) :
  (∀ x, f (g x) = Some (h x)) → omap f (g <$> l) = h <$> l.
Proof.
  intros Hf. induction l as [|x l IH]; [done|].
  csimpl. rewrite Hf. csimpl. by rewrite IH.
Qed.

(** The moves of a sequence, one by one, add up to its path cost. *)
Lemma moves_add_up s :
  foldr Z.add 0
    ((λ i, Z.abs (index s (i + 1) - index s i)) <$> seq 0 (length s - 1))
  = path_cost s.
Proof.
  induction s as [|x s IH]; [done|]. destruct s as [|y s]; [done|].
  replace (length (x :: y :: s) - 1)%nat with (S (length s)) by (simpl; lia).
  replace (length (y :: s) - 1)%nat with (length s) in IH by (simpl; lia).
  change (path_cost (x :: y :: s)) with (Z.abs (y - x) + path_cost (y :: s)).
  rewrite <-IH. simpl seq. rewrite fmap_cons. simpl foldr. f_equal.
  rewrite <-fmap_S_seq, <-list_fmap_compose. done.
Qed.

Lemma arrow_lengths_plot name sequence total disk_size :
  arrow_lengths (plot_on_axis name sequence total disk_size) =
  if decide (name ∈ ["SCAN"; "C-SCAN"; "C-LOOK"]%string) then
    (λ i, Z.abs (index sequence (i + 1) - index sequence i))
      <$> seq 0 (length sequence - 1)
  else [].
Proof.
  unfold arrow_lengths, plot_on_axis. rewrite !omap_app. simpl.
  rewrite app_nil_r. case_decide; [|done].
  by apply omap_fmap_Some.
Qed.

End drawing.

(** X20: the arrows on an axis.  For the names SCAN, C-SCAN and C-LOOK
    [plot_on_axis] draws one arrow for every move of the sequence, and the
    horizontal lengths of the arrows add up to the seek total computed
    from that sequence; for every other name it draws no arrow. *)
Theorem arrows_add_up name sequence total disk_size :
  (name ∈ ["SCAN"; "C-SCAN"; "C-LOOK"]%string →
     length (arrow_lengths (plot_on_axis name sequence total disk_size))
       = (length sequence - 1)%nat ∧
     foldr Z.add 0 (arrow_lengths (plot_on_axis name sequence total disk_size))
       = total_seek_of sequence) ∧
  (name ∉ ["SCAN"; "C-SCAN"; "C-LOOK"]%string →
     arrow_lengths (plot_on_axis name sequence total disk_size) = []).
Proof.
  rewrite arrow_lengths_plot. split; intros Hname.
  - rewrite decide_True by done. split.
    + by rewrite length_fmap, length_seq.
    + by rewrite moves_add_up, total_seek_of_path_cost.
  - by rewrite decide_False.
Qed.

(** The arrows of the C-SCAN axis on the form's default input. *)
Lemma arrows_add_up_witness :
  arrow_lengths
    (plot_on_axis "C-SCAN" [50; 65; 67; 98; 122; 124; 183; 199; 0; 14; 37]
                  385 200)
  = [15; 2; 31; 24; 2; 59; 16; 199; 14; 23] ∧
  foldr Z.add 0
    (arrow_lengths
       (plot_on_axis "C-SCAN" [50; 65; 67; 98; 122; 124; 183; 199; 0; 14; 37]
                     385 200))
  = total_seek_of [50; 65; 67; 98; 122; 124; 183; 199; 0; 14; 37].
Proof.
  split; [vm_compute; reflexivity|].
  apply (arrows_add_up "C-SCAN"
           [50; 65; 67; 98; 122; 124; 183; 199; 0; 14; 37] 385 200).
  do 1 right. left.
Defined.

(** X21: nothing is drawn off the axis.  On a checked input, every
    cylinder that [plot_on_axis] draws for the result of an algorithm, as
    a point of the line or as an end of an arrow, lies strictly between the
    limits [-5] and [disk_size + 5] that the same call sets for the
    horizontal axis. *)
Theorem plot_within_limits a name head requests disk_size :
  valid_input head requests disk_size →
  ∃ c, run a head requests disk_size = Returned c ∧
       set_xlim (-5) (disk_size + 5)
         ∈ plot_on_axis name (seek_sequence c) (total_seek c) disk_size ∧
       Forall (λ call, Forall (λ x, -5 < x < disk_size + 5)
                              (drawn_cylinders call))
              (plot_on_axis name (seek_sequence c) (total_seek c) disk_size).
Proof.
  intros Hv.
  destruct (run_in_range a head requests disk_size Hv) as (c & Hrun & Hin).
  exists c. split; [done|].
  assert (Forall (λ x, -5 < x < disk_size + 5) (seek_sequence c)) as Hin'.
  { eapply Forall_impl; [exact Hin|]. simpl. lia. }
  unfold plot_on_axis. split.
  - rewrite !elem_of_app. do 2 right. do 4 right. left.
  - rewrite !Forall_app. split; [|split].
    + repeat constructor. exact Hin'.
    + case_decide; [|constructor].
      apply Forall_fmap, Forall_forall. intros i Hi%elem_of_seq. simpl.
      pose proof (proj1 (Forall_forall _ _) Hin') as Hall. simpl in Hall.
      apply Forall_cons. split; [|apply Forall_singleton];
        apply Hall, index_elem; lia.
    + repeat constructor.
Qed.

Lemma plot_within_limits_witness :
  valid_input 50 [98; 183; 37] 200 ∧
  ∃ c, run C_SCAN 50 [98; 183; 37] 200 = Returned c ∧
       set_xlim (-5) (200 + 5)
         ∈ plot_on_axis "C-SCAN" (seek_sequence c) (total_seek c) 200 ∧
       Forall (λ call, Forall (λ x, -5 < x < 200 + 5) (drawn_cylinders call))
              (plot_on_axis "C-SCAN" (seek_sequence c) (total_seek c) 200).
Proof.
  assert (valid_input 50 [98; 183; 37] 200) as Hv.
  { split; [lia|]. repeat (constructor; [lia|]). constructor. }
  split; [exact Hv|].
  exact (plot_within_limits C_SCAN "C-SCAN" 50 [98; 183; 37] 200 Hv).
Defined.


(** The form as it opens, with head 50, disk size 200 and the queue
    98,183,37,122,14,124,65,67: the five titles. *)
Example run_simulation_form_titles :
  ∃ plots,
    run_simulation_form plain "50" "200" "98,183,37,122,14,124,65,67" ∅
      = Returned (inr plots) ∧
    omap (λ call, match call with set_title t => Some t | _ => None end)
         (mjoin plots)
    = ["FCFS (Total Seek: 643)"; "SSTF (Total Seek: 205)";
       "SCAN (Total Seek: 334)"; "C-SCAN (Total Seek: 385)";
       "C-LOOK (Total Seek: 325)"]%string.
Proof. eexists. split; vm_compute; reflexivity. Qed.
